(** * LearnCast front end: the wizard component and its two API proxies

    A shallow embedding of [src/app/page.tsx] (the [Learncast] React
    component), of [src/pages/api/generate_podcast.js] and of the
    [podcast_status] proxy route, followed by the properties of the
    specification that can be stated over them.

    Conventions of the embedding.
    - A JavaScript string is the list of its UTF-16 code units.
    - A finite JavaScript number is the rational it denotes, and the
      arithmetic of the sources on numbers rounds to binary64 as IEEE
      754 does ([round64]).  Integer-valued numbers ([step], the results
      of [Math.floor]) are in [Z].
    - Every [useState] cell of the component is a field of [State]; a
      setter call is a record update.  What the component only reaches
      through a ref or a timer (the audio element, the blur listener,
      the pending [setTimeout] callbacks) is a field of [State] too. *)

From Stdlib Require Import ZArith NArith QArith Qround Qpower List String Ascii.
From Stdlib Require Import Bool Lia.
From Stdlib Require Import DecimalString DecimalZ Lqa.
Import ListNotations.

Local Open Scope Z_scope.

(* ================================================================== *)
(** ** The fragment of the JavaScript runtime the sources rely on      *)
(* ================================================================== *)

Module JS.

Definition code_unit := N.
Definition jsstring := list code_unit.

(** A string literal of the source, as code units. *)
Definition lit (s : string) : jsstring :=
  map N_of_ascii (list_ascii_of_string s).

Fixpoint str_eqb (a b : jsstring) : bool :=
  match a, b with
  | [], [] => true
  | x :: a', y :: b' => N.eqb x y && str_eqb a' b'
  | _, _ => false
  end.

(** [a !== b] on strings. *)
Definition strict_neq (a b : jsstring) : bool := negb (str_eqb a b).

(** ECMAScript WhiteSpace and LineTerminator code points, the ones
    [String.prototype.trim] strips.  All of them are in the BMP, so a
    test on single code units is exact. *)
Definition isWhiteSpace (c : code_unit) : bool :=
  let c := Z.of_N c in
     (c =? 0x09) || (c =? 0x0A) || (c =? 0x0B) || (c =? 0x0C) || (c =? 0x0D)
  || (c =? 0x20) || (c =? 0xA0) || (c =? 0x1680)
  || ((0x2000 <=? c) && (c <=? 0x200A))
  || (c =? 0x2028) || (c =? 0x2029) || (c =? 0x202F) || (c =? 0x205F)
  || (c =? 0x3000) || (c =? 0xFEFF).

Fixpoint trimStart (s : jsstring) : jsstring :=
  match s with
  | [] => []
  | c :: r => if isWhiteSpace c then trimStart r else s
  end.

Definition trimEnd (s : jsstring) : jsstring := rev (trimStart (rev s)).

Definition trim (s : jsstring) : jsstring := trimEnd (trimStart s).

(** [s.padStart(targetLength, fillString)]. *)
Definition padStart (targetLength : nat) (fillString s : jsstring) : jsstring :=
  if (targetLength <=? List.length s)%nat then s
  else match fillString with
       | [] => s
       | _ =>
           let fillLen := (targetLength - List.length s)%nat in
           firstn fillLen (List.concat (repeat fillString fillLen)) ++ s
       end.

(** A finite number, by its value.  The values the sources compute are
    binary64 doubles: the rationals [round64] leaves in place. *)
Definition number := Q.

Definition pow2 (e : Z) : Q := (2 ^ e)%Q.

(** The binary exponent of a positive number: [2^e <= x < 2^(e+1)]. *)
Definition ilog2 (x : Q) : Z :=
  if Qle_bool 1 x then Z.log2 (Qfloor x) else - Z.log2_up (Qceiling (/ x)).

(** The nearest integer, ties to the even one. *)
Definition round_half_even (q : Q) : Z :=
  let f := Qfloor q in
  match (q - inject_Z f ?= 1 # 2)%Q with
  | Lt => f
  | Gt => f + 1
  | Eq => if Z.even f then f else f + 1
  end.

(** The unit in the last place of binary64 at [x]: 53 significant bits,
    and no unit below [2^-1074] (gradual underflow). *)
Definition ulp (x : Q) : Q := pow2 (Z.max (ilog2 x - 52) (-1074)).

Definition round_pos (x : Q) : Q :=
  (inject_Z (round_half_even (x / ulp x)) * ulp x)%Q.

(** Rounding of a real result to binary64, nearest with ties to even.
    Overflow to an infinity (magnitudes from [2^1024] on) is outside the
    finite numbers. *)
Definition round64 (x : Q) : number :=
  match (x ?= 0)%Q with
  | Eq => 0%Q
  | Gt => round_pos x
  | Lt => (- round_pos (- x))%Q
  end.

(** [a / b] and [a * b] on numbers, [b] non-zero. *)
Definition Number_divide (a b : number) : number := round64 (a / b).

Definition Number_multiply (a b : number) : number := round64 (a * b).

(** [Math.floor], on a finite number. *)
Definition Math_floor (x : number) : Z := Qfloor x.

(** Rounding towards zero, as in the definition of [%]. *)
Definition truncate (x : Q) : Z :=
  if Qle_bool 0 x then Qfloor x else Qceiling x.

(** [a % b] for a finite [a] and a finite non-zero [b]: the remainder
    has the sign of the dividend.  Number::remainder is computed from
    the exact quotient and is exact: the result is a double, nothing is
    rounded. *)
Definition remainder (a b : number) : number :=
  (a - b * inject_Z (truncate (a / b)))%Q.

(** The decimal digits of an integer, with a minus sign when it is
    negative. *)
Definition decimal (n : Z) : jsstring :=
  lit (NilZero.string_of_int (Z.to_int n)).

(** The number of decimal digits of a non-negative integer. *)
Definition digits_count (n : Z) : Z :=
  Z.of_nat
    (List.length (list_ascii_of_string (NilZero.string_of_int (Z.to_int n)))).

(** The two integers with all digits zero after the first
    [digits - j] that enclose [n], the one nearer to [n] first. *)
Definition candidates (n : Z) (j : Z) : list Z :=
  let p := 10 ^ j in
  let lo := (n / p) * p in
  let hi := lo + p in
  if n - lo <=? hi - n then [lo; hi] else [hi; lo].

(** The integer [c] reads back as the double [n]. *)
Definition names (n c : Z) : bool :=
  Qeq_bool (round64 (inject_Z c)) (inject_Z n).

(** What Number::toString prints for an integer-valued double
    [0 <= n < 10^21]: the integer with the fewest significant digits
    that reads back as [n] (the nearest to [n] among those), its other
    digits being zeros. *)
Definition printed (n : Z) : Z :=
  let d := digits_count n in
  hd n (filter (names n)
          (flat_map (fun k => candidates n (d - Z.of_nat k))
             (seq 1 (Z.to_nat d)))).

Section NumberToString.

(** Number::toString of an integer-valued number.  From 10^21 on it
    switches to exponent notation, which the sources never reach with a
    time in seconds: that branch is the parameter
    [exponent_notation]. *)
Variable exponent_notation : Z -> jsstring.

Definition Number_toString (n : Z) : jsstring :=
  if Z.abs n <? 10 ^ 21
  then decimal (Z.sgn n * printed (Z.abs n))
  else exponent_notation n.

End NumberToString.

End JS.

Import JS.

(* ================================================================== *)
(** ** src/app/page.tsx: the [Learncast] component                    *)
(* ================================================================== *)

Module Learncast.

(** An uploaded [File]; the component reads its [name] only. *)
Record File := { file_name : jsstring; file_size : N }.

(** The [<audio>] element behind [audioRef], reduced to the properties
    the component reads or assigns. *)
Record HTMLAudioElement := {
  el_src : jsstring;
  el_currentTime : number;
  el_duration : number;
  el_paused : bool;
  el_playbackRate : number
}.

Record State := {
  step : Z;
  sources : list File;
  urls : jsstring;
  analogies : jsstring;
  emphasis : jsstring;
  style : jsstring;
  plan : jsstring;
  showEmphasis : bool;
  isPlayingStingy : bool;
  isPlayingSigma : bool;
  isGenerating : bool;
  audioUrl : jsstring;
  isPlaying : bool;
  currentTime : number;
  duration : number;
  playbackRate : number;
  (** [audioRef.current]: [None] while no [<audio>] is mounted. *)
  audioRef : option HTMLAudioElement;
  (** Whether the mounted analogies textarea carries the blur listener
      of the effect. *)
  blurListener : bool;
  (** The pending [setTimeout] callbacks of [handleGenerate], oldest
      first, each with the value of [step] its closure captured. *)
  timeouts : list Z
}.

Definition setStep (v : Z) (s : State) : State :=
  {| step := v; sources := sources s; urls := urls s;
     analogies := analogies s; emphasis := emphasis s; style := style s;
     plan := plan s; showEmphasis := showEmphasis s;
     isPlayingStingy := isPlayingStingy s;
     isPlayingSigma := isPlayingSigma s; isGenerating := isGenerating s;
     audioUrl := audioUrl s; isPlaying := isPlaying s;
     currentTime := currentTime s; duration := duration s;
     playbackRate := playbackRate s; audioRef := audioRef s;
     blurListener := blurListener s; timeouts := timeouts s |}.

Definition setSources (v : list File) (s : State) : State :=
  {| step := step s; sources := v; urls := urls s; analogies := analogies s;
     emphasis := emphasis s; style := style s; plan := plan s;
     showEmphasis := showEmphasis s; isPlayingStingy := isPlayingStingy s;
     isPlayingSigma := isPlayingSigma s; isGenerating := isGenerating s;
     audioUrl := audioUrl s; isPlaying := isPlaying s;
     currentTime := currentTime s; duration := duration s;
     playbackRate := playbackRate s; audioRef := audioRef s;
     blurListener := blurListener s; timeouts := timeouts s |}.

Definition setUrls (v : jsstring) (s : State) : State :=
  {| step := step s; sources := sources s; urls := v;
     analogies := analogies s; emphasis := emphasis s; style := style s;
     plan := plan s; showEmphasis := showEmphasis s;
     isPlayingStingy := isPlayingStingy s;
     isPlayingSigma := isPlayingSigma s; isGenerating := isGenerating s;
     audioUrl := audioUrl s; isPlaying := isPlaying s;
     currentTime := currentTime s; duration := duration s;
     playbackRate := playbackRate s; audioRef := audioRef s;
     blurListener := blurListener s; timeouts := timeouts s |}.

Definition setAnalogies (v : jsstring) (s : State) : State :=
  {| step := step s; sources := sources s; urls := urls s; analogies := v;
     emphasis := emphasis s; style := style s; plan := plan s;
     showEmphasis := showEmphasis s; isPlayingStingy := isPlayingStingy s;
     isPlayingSigma := isPlayingSigma s; isGenerating := isGenerating s;
     audioUrl := audioUrl s; isPlaying := isPlaying s;
     currentTime := currentTime s; duration := duration s;
     playbackRate := playbackRate s; audioRef := audioRef s;
     blurListener := blurListener s; timeouts := timeouts s |}.

Definition setEmphasis (v : jsstring) (s : State) : State :=
  {| step := step s; sources := sources s; urls := urls s;
     analogies := analogies s; emphasis := v; style := style s;
     plan := plan s; showEmphasis := showEmphasis s;
     isPlayingStingy := isPlayingStingy s;
     isPlayingSigma := isPlayingSigma s; isGenerating := isGenerating s;
     audioUrl := audioUrl s; isPlaying := isPlaying s;
     currentTime := currentTime s; duration := duration s;
     playbackRate := playbackRate s; audioRef := audioRef s;
     blurListener := blurListener s; timeouts := timeouts s |}.

Definition setStyle (v : jsstring) (s : State) : State :=
  {| step := step s; sources := sources s; urls := urls s;
     analogies := analogies s; emphasis := emphasis s; style := v;
     plan := plan s; showEmphasis := showEmphasis s;
     isPlayingStingy := isPlayingStingy s;
     isPlayingSigma := isPlayingSigma s; isGenerating := isGenerating s;
     audioUrl := audioUrl s; isPlaying := isPlaying s;
     currentTime := currentTime s; duration := duration s;
     playbackRate := playbackRate s; audioRef := audioRef s;
     blurListener := blurListener s; timeouts := timeouts s |}.

Definition setPlan (v : jsstring) (s : State) : State :=
  {| step := step s; sources := sources s; urls := urls s;
     analogies := analogies s; emphasis := emphasis s; style := style s;
     plan := v; showEmphasis := showEmphasis s;
     isPlayingStingy := isPlayingStingy s;
     isPlayingSigma := isPlayingSigma s; isGenerating := isGenerating s;
     audioUrl := audioUrl s; isPlaying := isPlaying s;
     currentTime := currentTime s; duration := duration s;
     playbackRate := playbackRate s; audioRef := audioRef s;
     blurListener := blurListener s; timeouts := timeouts s |}.

Definition setShowEmphasis (v : bool) (s : State) : State :=
  {| step := step s; sources := sources s; urls := urls s;
     analogies := analogies s; emphasis := emphasis s; style := style s;
     plan := plan s; showEmphasis := v; isPlayingStingy := isPlayingStingy s;
     isPlayingSigma := isPlayingSigma s; isGenerating := isGenerating s;
     audioUrl := audioUrl s; isPlaying := isPlaying s;
     currentTime := currentTime s; duration := duration s;
     playbackRate := playbackRate s; audioRef := audioRef s;
     blurListener := blurListener s; timeouts := timeouts s |}.

Definition setIsPlayingStingy (v : bool) (s : State) : State :=
  {| step := step s; sources := sources s; urls := urls s;
     analogies := analogies s; emphasis := emphasis s; style := style s;
     plan := plan s; showEmphasis := showEmphasis s; isPlayingStingy := v;
     isPlayingSigma := isPlayingSigma s; isGenerating := isGenerating s;
     audioUrl := audioUrl s; isPlaying := isPlaying s;
     currentTime := currentTime s; duration := duration s;
     playbackRate := playbackRate s; audioRef := audioRef s;
     blurListener := blurListener s; timeouts := timeouts s |}.

Definition setIsPlayingSigma (v : bool) (s : State) : State :=
  {| step := step s; sources := sources s; urls := urls s;
     analogies := analogies s; emphasis := emphasis s; style := style s;
     plan := plan s; showEmphasis := showEmphasis s;
     isPlayingStingy := isPlayingStingy s; isPlayingSigma := v;
     isGenerating := isGenerating s; audioUrl := audioUrl s;
     isPlaying := isPlaying s; currentTime := currentTime s;
     duration := duration s; playbackRate := playbackRate s;
     audioRef := audioRef s; blurListener := blurListener s;
     timeouts := timeouts s |}.

Definition setIsGenerating (v : bool) (s : State) : State :=
  {| step := step s; sources := sources s; urls := urls s;
     analogies := analogies s; emphasis := emphasis s; style := style s;
     plan := plan s; showEmphasis := showEmphasis s;
     isPlayingStingy := isPlayingStingy s;
     isPlayingSigma := isPlayingSigma s; isGenerating := v;
     audioUrl := audioUrl s; isPlaying := isPlaying s;
     currentTime := currentTime s; duration := duration s;
     playbackRate := playbackRate s; audioRef := audioRef s;
     blurListener := blurListener s; timeouts := timeouts s |}.

Definition setAudioUrl (v : jsstring) (s : State) : State :=
  {| step := step s; sources := sources s; urls := urls s;
     analogies := analogies s; emphasis := emphasis s; style := style s;
     plan := plan s; showEmphasis := showEmphasis s;
     isPlayingStingy := isPlayingStingy s;
     isPlayingSigma := isPlayingSigma s; isGenerating := isGenerating s;
     audioUrl := v; isPlaying := isPlaying s; currentTime := currentTime s;
     duration := duration s; playbackRate := playbackRate s;
     audioRef := audioRef s; blurListener := blurListener s;
     timeouts := timeouts s |}.

Definition setIsPlaying (v : bool) (s : State) : State :=
  {| step := step s; sources := sources s; urls := urls s;
     analogies := analogies s; emphasis := emphasis s; style := style s;
     plan := plan s; showEmphasis := showEmphasis s;
     isPlayingStingy := isPlayingStingy s;
     isPlayingSigma := isPlayingSigma s; isGenerating := isGenerating s;
     audioUrl := audioUrl s; isPlaying := v; currentTime := currentTime s;
     duration := duration s; playbackRate := playbackRate s;
     audioRef := audioRef s; blurListener := blurListener s;
     timeouts := timeouts s |}.

Definition setCurrentTime (v : number) (s : State) : State :=
  {| step := step s; sources := sources s; urls := urls s;
     analogies := analogies s; emphasis := emphasis s; style := style s;
     plan := plan s; showEmphasis := showEmphasis s;
     isPlayingStingy := isPlayingStingy s;
     isPlayingSigma := isPlayingSigma s; isGenerating := isGenerating s;
     audioUrl := audioUrl s; isPlaying := isPlaying s; currentTime := v;
     duration := duration s; playbackRate := playbackRate s;
     audioRef := audioRef s; blurListener := blurListener s;
     timeouts := timeouts s |}.

Definition setDuration (v : number) (s : State) : State :=
  {| step := step s; sources := sources s; urls := urls s;
     analogies := analogies s; emphasis := emphasis s; style := style s;
     plan := plan s; showEmphasis := showEmphasis s;
     isPlayingStingy := isPlayingStingy s;
     isPlayingSigma := isPlayingSigma s; isGenerating := isGenerating s;
     audioUrl := audioUrl s; isPlaying := isPlaying s;
     currentTime := currentTime s; duration := v;
     playbackRate := playbackRate s; audioRef := audioRef s;
     blurListener := blurListener s; timeouts := timeouts s |}.

Definition setPlaybackRate (v : number) (s : State) : State :=
  {| step := step s; sources := sources s; urls := urls s;
     analogies := analogies s; emphasis := emphasis s; style := style s;
     plan := plan s; showEmphasis := showEmphasis s;
     isPlayingStingy := isPlayingStingy s;
     isPlayingSigma := isPlayingSigma s; isGenerating := isGenerating s;
     audioUrl := audioUrl s; isPlaying := isPlaying s;
     currentTime := currentTime s; duration := duration s; playbackRate := v;
     audioRef := audioRef s; blurListener := blurListener s;
     timeouts := timeouts s |}.

Definition setAudioRef (v : option HTMLAudioElement) (s : State) : State :=
  {| step := step s; sources := sources s; urls := urls s;
     analogies := analogies s; emphasis := emphasis s; style := style s;
     plan := plan s; showEmphasis := showEmphasis s;
     isPlayingStingy := isPlayingStingy s;
     isPlayingSigma := isPlayingSigma s; isGenerating := isGenerating s;
     audioUrl := audioUrl s; isPlaying := isPlaying s;
     currentTime := currentTime s; duration := duration s;
     playbackRate := playbackRate s; audioRef := v;
     blurListener := blurListener s; timeouts := timeouts s |}.

Definition setBlurListener (v : bool) (s : State) : State :=
  {| step := step s; sources := sources s; urls := urls s;
     analogies := analogies s; emphasis := emphasis s; style := style s;
     plan := plan s; showEmphasis := showEmphasis s;
     isPlayingStingy := isPlayingStingy s;
     isPlayingSigma := isPlayingSigma s; isGenerating := isGenerating s;
     audioUrl := audioUrl s; isPlaying := isPlaying s;
     currentTime := currentTime s; duration := duration s;
     playbackRate := playbackRate s; audioRef := audioRef s;
     blurListener := v; timeouts := timeouts s |}.

Definition setTimeouts (v : list Z) (s : State) : State :=
  {| step := step s; sources := sources s; urls := urls s;
     analogies := analogies s; emphasis := emphasis s; style := style s;
     plan := plan s; showEmphasis := showEmphasis s;
     isPlayingStingy := isPlayingStingy s;
     isPlayingSigma := isPlayingSigma s; isGenerating := isGenerating s;
     audioUrl := audioUrl s; isPlaying := isPlaying s;
     currentTime := currentTime s; duration := duration s;
     playbackRate := playbackRate s; audioRef := audioRef s;
     blurListener := blurListener s; timeouts := v |}.

(** The values passed to [useState] and [useRef]. *)
Definition initial : State :=
  {| step := 0; sources := []; urls := []; analogies := []; emphasis := [];
     style := []; plan := []; showEmphasis := false;
     isPlayingStingy := false; isPlayingSigma := false;
     isGenerating := false; audioUrl := []; isPlaying := false;
     currentTime := 0%Q; duration := 0%Q; playbackRate := 1%Q;
     audioRef := None; blurListener := false; timeouts := [] |}.

(** *** Handlers, in the order of the source *)

Definition handleAnalogiesBlur (s : State) : State :=
  if strict_neq (trim (analogies s)) (lit "") then setShowEmphasis true s
  else s.

(** [files] is [e.target.files], a [FileList] or [null]. *)
Definition handleFileUpload (files : option (list File)) (s : State) : State :=
  match files with
  | Some fl => setSources fl s
  | None => s
  end.

Definition generated_podcast_url : jsstring :=
  lit "https://example.com/generated-podcast.mp3".

(** The callback [handleGenerate] hands to [setTimeout]; [step] inside
    it is the value of the render that created the closure. *)
Definition generateCallback (captured_step : Z) (s : State) : State :=
  setStep (captured_step + 1)
    (setAudioUrl generated_podcast_url (setIsGenerating false s)).

Definition handleGenerate (s : State) : State :=
  setTimeouts (timeouts s ++ [step s]) (setIsGenerating true s).

(** [audio.play()].  The element takes the call ([accepted]) and
    playback begins, or it refuses it (the source failed to load, or the
    page is not allowed to play): the promise the component ignores is
    rejected and the element stays as it was. *)
Definition media_play (accepted : bool) (a : HTMLAudioElement)
  : HTMLAudioElement :=
  {| el_src := el_src a; el_currentTime := el_currentTime a;
     el_duration := el_duration a;
     el_paused := if accepted then false else el_paused a;
     el_playbackRate := el_playbackRate a |}.

Definition media_pause (a : HTMLAudioElement) : HTMLAudioElement :=
  {| el_src := el_src a; el_currentTime := el_currentTime a;
     el_duration := el_duration a; el_paused := true;
     el_playbackRate := el_playbackRate a |}.

Definition media_set_currentTime (t : number) (a : HTMLAudioElement)
  : HTMLAudioElement :=
  {| el_src := el_src a; el_currentTime := t;
     el_duration := el_duration a; el_paused := el_paused a;
     el_playbackRate := el_playbackRate a |}.

Definition media_set_duration (d : number) (a : HTMLAudioElement)
  : HTMLAudioElement :=
  {| el_src := el_src a; el_currentTime := el_currentTime a;
     el_duration := d; el_paused := el_paused a;
     el_playbackRate := el_playbackRate a |}.

Definition media_set_playbackRate (r : number) (a : HTMLAudioElement)
  : HTMLAudioElement :=
  {| el_src := el_src a; el_currentTime := el_currentTime a;
     el_duration := el_duration a; el_paused := el_paused a;
     el_playbackRate := r |}.

(** [accepted]: what the element does with [play()], when the handler
    calls it. *)
Definition handlePlayPause (accepted : bool) (s : State) : State :=
  match audioRef s with
  | Some a =>
      let a' :=
        if isPlaying s then media_pause a else media_play accepted a in
      setIsPlaying (negb (isPlaying s)) (setAudioRef (Some a') s)
  | None => s
  end.

Definition handleTimeUpdate (s : State) : State :=
  match audioRef s with
  | Some a => setCurrentTime (el_currentTime a) s
  | None => s
  end.

Definition handleLoadedMetadata (s : State) : State :=
  match audioRef s with
  | Some a => setDuration (el_duration a) s
  | None => s
  end.

Definition handleSeek (newTime : number) (s : State) : State :=
  match audioRef s with
  | Some a =>
      setCurrentTime newTime
        (setAudioRef (Some (media_set_currentTime newTime a)) s)
  | None => s
  end.

(** The four [SelectItem]s of the speed control, and [parseFloat] of
    their values. *)
Inductive SelectItem := item_0_5 | item_1 | item_1_5 | item_2.

Definition item_value (i : SelectItem) : jsstring :=
  match i with
  | item_0_5 => lit "0.5"
  | item_1 => lit "1"
  | item_1_5 => lit "1.5"
  | item_2 => lit "2"
  end.

Definition parseFloat_item (i : SelectItem) : number :=
  match i with
  | item_0_5 => 1 # 2
  | item_1 => 1
  | item_1_5 => 3 # 2
  | item_2 => 2
  end%Q.

Definition handlePlaybackRateChange (newRate : SelectItem) (s : State) : State :=
  let rate := parseFloat_item newRate in
  let s1 := setPlaybackRate rate s in
  match audioRef s1 with
  | Some a => setAudioRef (Some (media_set_playbackRate rate a)) s1
  | None => s1
  end.

Section FormatTime.
Variable exponent_notation : Z -> jsstring.

Definition formatTime (time : number) : jsstring :=
  let minutes := Math_floor (Number_divide time 60%Q) in
  let seconds := Math_floor (remainder time 60%Q) in
  Number_toString exponent_notation minutes
    ++ lit ":"
    ++ padStart 2 (lit "0") (Number_toString exponent_notation seconds).
End FormatTime.

Definition isStepComplete (s : State) (stepIndex : Z) : bool :=
  match stepIndex with
  | 0 => true
  | 1 => (0 <? List.length (sources s))%nat || strict_neq (trim (urls s)) (lit "")
  | 2 => strict_neq (trim (analogies s)) (lit "")
         && (negb (showEmphasis s) || strict_neq (trim (emphasis s)) (lit ""))
  | 3 => strict_neq (style s) (lit "")
  | 4 => strict_neq (plan s) (lit "")
  | _ => false
  end.

Definition podcastStyles : list jsstring :=
  [lit "casual"; lit "professional"; lit "educational"; lit "entertaining"].

(** [steps.length]. *)
Definition steps_length : Z := 7.

(** *** The navigation buttons of the card footer *)

(** [step > 0 && step < steps.length - 2]: the footer is rendered. *)
Definition footer_rendered (s : State) : bool :=
  (0 <? step s) && (step s <? steps_length - 2).

(** [onClick] of the Previous button. *)
Definition previous_onClick (s : State) : State :=
  let s1 := setStep (step s - 1) s in
  if step s =? 4 then setPlan (lit "") s1 else s1.

(** [onClick] of the Next/Generate button. *)
Definition next_onClick (s : State) : State :=
  if step s =? 4 then handleGenerate s else setStep (step s + 1) s.

(** The Next/Generate button is rendered and not [disabled]. *)
Definition next_enabled (s : State) : bool :=
  footer_rendered s && (step s <? steps_length - 2)
    && isStepComplete s (step s).

(** A click on Previous: it reaches [onClick] when the button exists. *)
Definition goPrevious (s : State) : State :=
  if footer_rendered s then previous_onClick s else s.

(** A click on Next/Generate: a button that is absent or [disabled]
    fires no click. *)
Definition goNext (s : State) : State :=
  if next_enabled s then next_onClick s else s.

(** *** Events *)

Inductive event :=
| StartLearning
| FileChange (files : option (list File))
| UrlsChange (value : jsstring)
| AnalogiesChange (value : jsstring)
| AnalogiesBlur
| EmphasisChange (value : jsstring)
| StyleChange (value : jsstring)
| SampleStingy
| SelectStingy
| SampleSigma
| SelectSigma
| Previous
| Next
| TimerFired
| PlayPause (accepted : bool)
| RateChange (item : SelectItem)
| SliderChange (value : number)
| AudioTimeUpdate (position : number)
| AudioLoadedMetadata (total : number).

(** The handler an event reaches on the card of the current step, once
    that card is mounted: a control only exists on the card of the step
    that renders it.  The card is wrapped in [AnimatePresence] with
    [mode="wait"], so after a change of step the card that was shown
    stays on the page, with the closures of its last render, until its
    exit transition ends; the events it still takes are
    [handle_leaving], below. *)
Definition handle (e : event) (s : State) : State :=
  match e with
  | StartLearning => if step s =? 0 then setStep 1 s else s
  | FileChange files => if step s =? 1 then handleFileUpload files s else s
  | UrlsChange v => if step s =? 1 then setUrls v s else s
  | AnalogiesChange v => if step s =? 2 then setAnalogies v s else s
  | AnalogiesBlur =>
      if (step s =? 2) && blurListener s then handleAnalogiesBlur s else s
  | EmphasisChange v =>
      if (step s =? 2) && showEmphasis s then setEmphasis v s else s
  | StyleChange v =>
      if (step s =? 3) && existsb (str_eqb v) podcastStyles
      then setStyle v s else s
  | SampleStingy =>
      if step s =? 4 then setIsPlayingStingy (negb (isPlayingStingy s)) s else s
  | SelectStingy => if step s =? 4 then setPlan (lit "stingy") s else s
  | SampleSigma =>
      if step s =? 4 then setIsPlayingSigma (negb (isPlayingSigma s)) s else s
  | SelectSigma => if step s =? 4 then setPlan (lit "sigma") s else s
  | Previous => goPrevious s
  | Next => goNext s
  | TimerFired =>
      match timeouts s with
      | [] => s
      | captured :: rest => generateCallback captured (setTimeouts rest s)
      end
  | PlayPause accepted =>
      if step s =? 6 then handlePlayPause accepted s else s
  | RateChange i => if step s =? 6 then handlePlaybackRateChange i s else s
  | SliderChange v =>
      (* the Slider has min 0, max [duration] *)
      if (step s =? 6) && Qle_bool 0 v && Qle_bool v (duration s)
      then handleSeek v s else s
  | AudioTimeUpdate t =>
      match audioRef s with
      | Some a =>
          handleTimeUpdate (setAudioRef (Some (media_set_currentTime t a)) s)
      | None => s
      end
  | AudioLoadedMetadata d =>
      match audioRef s with
      | Some a =>
          handleLoadedMetadata (setAudioRef (Some (media_set_duration d a)) s)
      | None => s
      end
  end.

(** The [<audio src={audioUrl} hidden />] of the result step, as it is
    mounted. *)
Definition mounted_audio (s : State) : HTMLAudioElement :=
  {| el_src := audioUrl s; el_currentTime := 0%Q; el_duration := 0%Q;
     el_paused := true; el_playbackRate := 1%Q |}.

(** What the commit after a handler does to the refs.  The card is
    keyed by [step], so a new step mounts new elements: the new
    textarea has no listener, and an [<audio>] exists at step 6 only.
    The effect runs when [analogies] changed, and attaches the listener
    if the textarea is mounted. *)
Definition commit (before after : State) : State :=
  let s1 :=
    if step after =? step before then after
    else setBlurListener false
           (setAudioRef
              (if step after =? 6 then Some (mounted_audio after) else None)
              after) in
  if strict_neq (analogies s1) (analogies before)
  then setBlurListener (step s1 =? 2) s1
  else s1.

Definition dispatch (s : State) (e : event) : State := commit s (handle e s).

Definition run (s : State) (es : list event) : State := fold_left dispatch es s.

(** *** The card that is leaving *)

(** The handler an event reaches on a card rendered from the state [r]
    while the state is [s]: the closures read the values of their
    render ([step], [isPlayingStingy], [isPlaying], what the render
    showed and enabled), the setters write to the current state.  The
    blur listener and the element events belong to the mounted elements,
    which the effect and the browser keep current. *)
Definition handle_leaving (r : State) (e : event) (s : State) : State :=
  match e with
  | StartLearning => if step r =? 0 then setStep 1 s else s
  | FileChange files => if step r =? 1 then handleFileUpload files s else s
  | UrlsChange v => if step r =? 1 then setUrls v s else s
  | AnalogiesChange v => if step r =? 2 then setAnalogies v s else s
  | AnalogiesBlur =>
      if (step r =? 2) && blurListener s then handleAnalogiesBlur s else s
  | EmphasisChange v =>
      if (step r =? 2) && showEmphasis r then setEmphasis v s else s
  | StyleChange v =>
      if (step r =? 3) && existsb (str_eqb v) podcastStyles
      then setStyle v s else s
  | SampleStingy =>
      if step r =? 4 then setIsPlayingStingy (negb (isPlayingStingy r)) s else s
  | SelectStingy => if step r =? 4 then setPlan (lit "stingy") s else s
  | SampleSigma =>
      if step r =? 4 then setIsPlayingSigma (negb (isPlayingSigma r)) s else s
  | SelectSigma => if step r =? 4 then setPlan (lit "sigma") s else s
  | Previous =>
      if footer_rendered r then
        let s1 := setStep (step r - 1) s in
        if step r =? 4 then setPlan (lit "") s1 else s1
      else s
  | Next =>
      if next_enabled r then
        if step r =? 4
        then setTimeouts (timeouts s ++ [step r]) (setIsGenerating true s)
        else setStep (step r + 1) s
      else s
  | TimerFired =>
      match timeouts s with
      | [] => s
      | captured :: rest => generateCallback captured (setTimeouts rest s)
      end
  | PlayPause accepted =>
      if step r =? 6 then
        match audioRef s with
        | Some a =>
            let a' :=
              if isPlaying r then media_pause a else media_play accepted a in
            setIsPlaying (negb (isPlaying r)) (setAudioRef (Some a') s)
        | None => s
        end
      else s
  | RateChange i => if step r =? 6 then handlePlaybackRateChange i s else s
  | SliderChange v =>
      if (step r =? 6) && Qle_bool 0 v && Qle_bool v (duration r)
      then handleSeek v s else s
  | AudioTimeUpdate t =>
      match audioRef s with
      | Some a =>
          handleTimeUpdate (setAudioRef (Some (media_set_currentTime t a)) s)
      | None => s
      end
  | AudioLoadedMetadata d =>
      match audioRef s with
      | Some a =>
          handleLoadedMetadata (setAudioRef (Some (media_set_duration d a)) s)
      | None => s
      end
  end.

(** What is on the page: the state, and the render of the card that is
    leaving, if one is ([None]: the card of the current step is
    mounted). *)
Record Page := { now : State; leaving : option State }.

(** The effect after an event on the card rendered from [r]: it runs
    when [analogies] changed, and attaches the listener if that card
    holds the textarea. *)
Definition commit_effect (r before after : State) : State :=
  if strict_neq (analogies after) (analogies before)
  then setBlurListener (step r =? 2) after
  else after.

(** The exit transition ends: the card of the current step is mounted,
    with new elements. *)
Definition settle (p : Page) : Page :=
  match leaving p with
  | None => p
  | Some _ =>
      {| now := setBlurListener false
                  (setAudioRef
                     (if step (now p) =? 6 then Some (mounted_audio (now p))
                      else None)
                     (now p));
         leaving := None |}
  end.

Inductive action :=
| On (e : event)
| TransitionEnd.

(** One action on the page.  An event goes to the card that is on the
    page; when it changes the step while the card of the current step
    is mounted, that card starts to leave, with the render it had. *)
Definition act (p : Page) (a : action) : Page :=
  match a with
  | TransitionEnd => settle p
  | On e =>
      match leaving p with
      | Some r =>
          {| now := commit_effect r (now p) (handle_leaving r e (now p));
             leaving := Some r |}
      | None =>
          let s := now p in
          let s' := commit_effect s s (handle_leaving s e s) in
          {| now := s';
             leaving := if step s' =? step s then None else Some s |}
      end
  end.

Definition play (p : Page) (acts : list action) : Page := fold_left act acts p.

Definition first_page : Page := {| now := initial; leaving := None |}.

End Learncast.

(* ================================================================== *)
(** ** The API routes: generate_podcast and podcast_status            *)
(* ================================================================== *)

Module Api.

(** A parsed JSON value. *)
#[warnings="-register-all"] Inductive json :=
| JNull
| JBool (b : bool)
| JNumber (q : number)
| JString (s : jsstring)
| JArray (items : list json)
| JObject (members : list (jsstring * json)).

(** A value of [req.query]. *)
Inductive query_value :=
| QueryUndefined
| QueryString (s : jsstring)
| QueryArray (items : list jsstring).

Record request := {
  method : jsstring;
  body : json;
  query_id : query_value
}.

(** What the handler leaves in [res]. *)
Inductive payload :=
| Json (data : json)
| Ended (text : jsstring).

Record response := {
  statusCode : Z;
  headers : list (jsstring * list jsstring);
  sent : payload
}.

(** The second argument of [fetch]; [init_body] holds the value that
    [JSON.stringify] serialises. *)
Record RequestInit := {
  init_method : jsstring;
  init_headers : list (jsstring * jsstring);
  init_body : option json
}.

(** The upstream's answer: its status, and its body as
    [response.json()] parses it ([None]: the body is not JSON and
    [response.json()] rejects). *)
Record upstream_response := {
  up_status : Z;
  up_json : option json
}.

(** [await fetch(...)]: node-fetch rejects on a network failure and
    resolves on every HTTP status. *)
Inductive fetch_result :=
| Rejected
| Resolved (r : upstream_response).

(** Template-literal conversion of [req.query.id]. *)
Fixpoint join_comma (l : list jsstring) : jsstring :=
  match l with
  | [] => []
  | [x] => x
  | x :: r => x ++ lit "," ++ join_comma r
  end.

Definition query_to_string (q : query_value) : jsstring :=
  match q with
  | QueryUndefined => lit "undefined"
  | QueryString s => s
  | QueryArray l => join_comma l
  end.

Definition error_body (message : jsstring) : json :=
  JObject [(lit "error", JString message)].

Definition method_not_allowed (allow : jsstring) (req : request) : response :=
  {| statusCode := 405;
     headers := [(lit "Allow", [allow])];
     sent := Ended (lit "Method " ++ method req ++ lit " Not Allowed") |}.

(** The call [generate_podcast_handler] makes to the upstream. *)
Definition generate_url : jsstring :=
  lit "http://localhost:8000/generate_podcast".

Definition generate_init (req : request) : option RequestInit :=
  Some {| init_method := lit "POST";
          init_headers := [(lit "Content-Type", lit "application/json")];
          init_body := Some (body req) |}.

(** The call [podcast_status_handler] makes to the upstream. *)
Definition status_url (req : request) : jsstring :=
  lit "http://localhost:8000/podcast_status/" ++ query_to_string (query_id req).

Section Handlers.

(** The upstream, as [fetch] sees it. *)
Variable fetch : jsstring -> option RequestInit -> fetch_result.

(** The body of [try]: both awaits, then the 200 answer; [None] when
    either await throws. *)
Definition forward (url : jsstring) (init : option RequestInit)
  : option response :=
  match fetch url init with
  | Rejected => None
  | Resolved r =>
      match up_json r with
      | None => None
      | Some data =>
          Some {| statusCode := 200; headers := []; sent := Json data |}
      end
  end.

Definition internal_error (message : jsstring) : response :=
  {| statusCode := 500; headers := []; sent := Json (error_body message) |}.

(** src/pages/api/generate_podcast.js *)
Definition generate_podcast_handler (req : request) : response :=
  if str_eqb (method req) (lit "POST") then
    match forward generate_url (generate_init req) with
    | Some res => res
    | None => internal_error (lit "Failed to generate podcast")
    end
  else method_not_allowed (lit "POST") req.

(** The podcast_status route. *)
Definition podcast_status_handler (req : request) : response :=
  if str_eqb (method req) (lit "GET") then
    match forward (status_url req) None with
    | Some res => res
    | None => internal_error (lit "Failed to fetch podcast status")
    end
  else method_not_allowed (lit "GET") req.

End Handlers.

(** A response in the 2xx range. *)
Definition is_success (res : response) : bool :=
  (200 <=? statusCode res) && (statusCode res <? 300).

Definition upstream_ok (r : upstream_response) : bool :=
  (200 <=? up_status r) && (up_status r <? 300).

End Api.

Import Learncast.
Import Api.

(* ================================================================== *)
(** ** Sessions, states and upstreams used below                       *)
(* ================================================================== *)

(** What a session can reach: the step index stays within 0..5, every
    pending callback captured step 4, and no audio element is mounted. *)
Definition session_invariant (s : State) : Prop :=
  0 <= step s <= 5 /\ Forall (fun c => c = 4) (timeouts s)
  /\ audioRef s = None.

(** A session that fills in every step and selects the Stingy plan. *)
Definition ready_to_generate : State :=
  run initial
    [StartLearning; UrlsChange (lit "http://x"); Next;
     AnalogiesChange (lit "like a river"); Next;
     StyleChange (lit "casual"); Next;
     SelectStingy].

(** The result step with a mounted audio element of 120 seconds, after
    its metadata has loaded. *)
Definition player_120 : State :=
  let shown := setStep 6 (setAudioUrl generated_podcast_url initial) in
  handleLoadedMetadata
    (setAudioRef (Some (media_set_duration 120%Q (mounted_audio shown))) shown).

(** An upstream that answers every call with status 500 and a JSON
    body. *)
Definition failing_upstream (url : jsstring) (init : option RequestInit)
  : fetch_result :=
  Resolved {| up_status := 500;
              up_json := Some (JObject [(lit "detail", JString (lit "boom"))]) |}.

(** An upstream that cannot be reached. *)
Definition unreachable (url : jsstring) (init : option RequestInit)
  : fetch_result := Rejected.

Definition post_request : request :=
  {| method := lit "POST";
     body := JObject [(lit "style", JString (lit "casual"))];
     query_id := QueryUndefined |}.

Definition status_request : request :=
  {| method := lit "GET"; body := JNull; query_id := QueryString (lit "abc") |}.

(* ================================================================== *)
(** ** What the render shows, and predicates on states                 *)
(* ================================================================== *)

(** [step > 0 && step < steps.length - 1]: the progress bar is
    rendered. *)
Definition progress_rendered (s : State) : bool :=
  (0 <? step s) && (step s <? steps_length - 1).

(** [(step / (steps.length - 2)) * 100], the value of the progress
    bar. *)
Definition progress_value (s : State) : number :=
  Number_multiply
    (Number_divide (inject_Z (step s)) (inject_Z (steps_length - 2))) 100%Q.

(** The [isPlaying] flag agrees with the audio element. *)
Definition play_in_sync (s : State) : Prop :=
  match audioRef s with
  | Some a => isPlaying s = negb (el_paused a)
  | None => True
  end.

(** The displayed time is the position of the audio element. *)
Definition time_in_sync (s : State) : Prop :=
  match audioRef s with
  | Some a => currentTime s = el_currentTime a
  | None => True
  end.

(** What every page of a session satisfies: the invariant of a session
    for the state, and a leaving card that was rendered at a step within
    0..5 and showed the emphasis field only if the latch is on. *)
Definition page_invariant (p : Page) : Prop :=
  session_invariant (now p)
  /\ forall r, leaving p = Some r ->
       0 <= step r <= 5
       /\ (showEmphasis r = true -> showEmphasis (now p) = true).

(** The values [setPlan] is called with. *)
Definition plan_value (p : jsstring) : Prop :=
  p = lit "" \/ p = lit "stingy" \/ p = lit "sigma".

(** An upstream that answers every call with status [status] and the
    JSON body [reply] computes from the body it was sent. *)
Definition answering (status : Z) (reply : option json -> json)
    (url : jsstring) (init : option RequestInit) : fetch_result :=
  Resolved {| up_status := status;
              up_json := Some (reply (match init with
                                      | Some i => init_body i
                                      | None => None
                                      end)) |}.

(* ================================================================== *)
(** ** Strings                                                         *)
(* ================================================================== *)

Lemma str_eqb_eq (a b : jsstring) : str_eqb a b = true <-> a = b.
Proof.
  revert b; induction a as [|x a IH]; intros [|y b]; simpl;
    try (split; [discriminate | congruence]); try tauto.
  rewrite andb_true_iff, N.eqb_eq, IH.
  split; [intros [-> ->]; reflexivity | intros [= -> ->]; auto].
Qed.

Lemma strict_neq_true (a b : jsstring) : strict_neq a b = true <-> a <> b.
Proof.
  unfold strict_neq. rewrite negb_true_iff, <- not_true_iff_false, str_eqb_eq.
  tauto.
Qed.

Lemma strict_neq_refl (a : jsstring) : strict_neq a a = false.
Proof.
  unfold strict_neq. apply negb_false_iff, str_eqb_eq. reflexivity.
Qed.

Lemma not_empty_literal (a : jsstring) :
  strict_neq a (lit "") = true <-> a <> [].
Proof. apply strict_neq_true. Qed.

(** [trimStart] leaves nothing exactly when every code unit is white
    space. *)
Lemma trimStart_nil (s : jsstring) :
  trimStart s = [] <-> forallb isWhiteSpace s = true.
Proof.
  induction s as [|c s IH]; simpl; [tauto|].
  destruct (isWhiteSpace c); simpl; [exact IH | split; discriminate].
Qed.

(** What [trimStart] leaves is white only if it is empty. *)
Lemma trimStart_white (s : jsstring) :
  forallb isWhiteSpace (trimStart s) = true -> trimStart s = [].
Proof.
  induction s as [|c s IH]; simpl; [reflexivity|].
  destruct (isWhiteSpace c) eqn:E; [exact IH|].
  simpl. rewrite E. discriminate.
Qed.

Lemma forallb_rev {A} (f : A -> bool) (l : list A) :
  forallb f (rev l) = forallb f l.
Proof.
  induction l as [|x l IH]; simpl; [reflexivity|].
  rewrite forallb_app, IH. simpl. rewrite andb_true_r. apply andb_comm.
Qed.

Lemma rev_nil_inv {A} (l : list A) : rev l = [] <-> l = [].
Proof.
  split; [|intros ->; reflexivity].
  intros H. rewrite <- (rev_involutive l), H. reflexivity.
Qed.

(** A string trims to the empty string exactly when it is blank. *)
Lemma trim_nil (s : jsstring) :
  trim s = [] <-> forallb isWhiteSpace s = true.
Proof.
  unfold trim, trimEnd, jsstring.
  rewrite rev_nil_inv, trimStart_nil, forallb_rev.
  split.
  - intros H. apply trimStart_nil, trimStart_white, H.
  - intros H. apply trimStart_nil in H. rewrite H. reflexivity.
Qed.

(** The trimmed string is non-empty exactly when the string holds a code
    unit that is not white space. *)
Lemma trim_not_nil (s : jsstring) :
  trim s <> [] <-> exists c, In c s /\ isWhiteSpace c = false.
Proof.
  rewrite trim_nil. split.
  - intros H. induction s as [|c s IH]; simpl in *; [congruence|].
    destruct (isWhiteSpace c) eqn:E.
    + destruct IH as (d & Hd & Hw); [exact H|]. exists d; auto.
    + exists c; auto.
  - intros (c & Hc & Hw) H. rewrite forallb_forall in H.
    rewrite (H c Hc) in Hw. discriminate.
Qed.

(* ================================================================== *)
(** ** The wizard                                                      *)
(* ================================================================== *)

(** Case analysis on the tests a handler makes. *)
Ltac split_tests :=
  repeat match goal with
    | |- context [if ?b then _ else _] => destruct b eqn:?
    | |- context [match ?x with _ => _ end] => destruct x eqn:?
    end.

Lemma has_sources (l : list File) :
  (0 <? List.length l)%nat = true <-> l <> [].
Proof. destruct l; unfold Nat.ltb; simpl; split; congruence. Qed.

(** C2. [isStepComplete] is: true at step 0; at step 1, true iff the
    sources list is non-empty or [urls] is non-empty after trimming; at
    step 2, true iff [analogies] is non-empty after trimming and
    ([showEmphasis] is false or [emphasis] is non-empty after trimming);
    at step 3, true iff [style] is non-empty; at step 4, true iff [plan]
    is non-empty. *)
Theorem isStepComplete_predicates (s : State) :
  isStepComplete s 0 = true
  /\ (isStepComplete s 1 = true <->
        sources s <> [] \/ trim (urls s) <> lit "")
  /\ (isStepComplete s 2 = true <->
        trim (analogies s) <> lit ""
        /\ (showEmphasis s = false \/ trim (emphasis s) <> lit ""))
  /\ (isStepComplete s 3 = true <-> style s <> lit "")
  /\ (isStepComplete s 4 = true <-> plan s <> lit "").
Proof.
  cbn [isStepComplete].
  split; [reflexivity|]. split; [|split; [|split]].
  - rewrite orb_true_iff, has_sources, strict_neq_true. tauto.
  - rewrite andb_true_iff, orb_true_iff, negb_true_iff, !strict_neq_true.
    tauto.
  - apply strict_neq_true.
  - apply strict_neq_true.
Qed.

(** Steps 5 and 6, and every other index, are never complete. *)
Lemma isStepComplete_beyond (s : State) (i : Z) :
  i < 0 \/ 4 < i -> isStepComplete s i = false.
Proof.
  intros H. unfold isStepComplete.
  destruct i as [|p|p]; try reflexivity; try lia.
  do 3 (destruct p as [p|p|]; try reflexivity; try lia).
Qed.

(** C3. At a step in 1..4 whose completion predicate fails, [goNext]
    leaves the whole state as it is; and whenever [goNext] moves the
    step index forward, the predicate of the step it left held. *)
Theorem goNext_requires_complete (s : State) :
  1 <= step s <= 4 ->
  (isStepComplete s (step s) = false ->
     goNext s = s /\ dispatch s Next = s)
  /\ (step s < step (goNext s) -> isStepComplete s (step s) = true).
Proof.
  intros _. unfold dispatch, handle, goNext, next_enabled. split.
  - intros ->. rewrite andb_false_r. split; [reflexivity|].
    unfold commit. rewrite Z.eqb_refl, strict_neq_refl. reflexivity.
  - destruct (isStepComplete s (step s)); [reflexivity|].
    rewrite andb_false_r. lia.
Qed.

(** The same gate outside 1..4: [goNext] does nothing at the welcome,
    generating and result steps. *)
Lemma goNext_outside_footer (s : State) :
  step s <= 0 \/ 5 <= step s -> goNext s = s.
Proof.
  intros H. unfold goNext, next_enabled, footer_rendered, steps_length.
  destruct (0 <? step s) eqn:E1; [|reflexivity].
  destruct (step s <? 7 - 2) eqn:E2; [|reflexivity].
  apply Z.ltb_lt in E1, E2. lia.
Qed.

(** C7. From step 4, [goPrevious] sets the step index to 3 and [plan]
    to the empty string. *)
Theorem goPrevious_from_plan_step (s : State) :
  step s = 4 ->
  step (goPrevious s) = 3 /\ plan (goPrevious s) = lit ""
  /\ step (dispatch s Previous) = 3 /\ plan (dispatch s Previous) = lit "".
Proof.
  intros H.
  assert (E : goPrevious s = setPlan (lit "") (setStep 3 s)).
  { unfold goPrevious, footer_rendered, previous_onClick. rewrite H.
    reflexivity. }
  unfold dispatch, handle, commit. rewrite E. cbn. rewrite H. cbn.
  rewrite strict_neq_refl. cbn. auto.
Qed.

(** At the other steps with a footer, [goPrevious] only decrements. *)
Lemma goPrevious_elsewhere (s : State) :
  1 <= step s <= 3 -> goPrevious s = setStep (step s - 1) s.
Proof.
  intros H. unfold goPrevious, footer_rendered, previous_onClick, steps_length.
  replace (0 <? step s) with true by (symmetry; apply Z.ltb_lt; lia).
  replace (step s <? 7 - 2) with true by (symmetry; apply Z.ltb_lt; lia).
  replace (step s =? 4) with false by (symmetry; apply Z.eqb_neq; lia).
  reflexivity.
Qed.

(** C10. An upload event with a file list replaces [sources] by exactly
    the files of the event, whatever was uploaded before, and touches no
    other field; two uploads in a row leave only the files of the
    second. *)
Theorem handleFileUpload_replaces (s : State) (files earlier : list File) :
  handleFileUpload (Some files) s = setSources files s
  /\ sources (handleFileUpload (Some files) s) = files
  /\ sources (handleFileUpload (Some files)
                (handleFileUpload (Some earlier) s)) = files.
Proof. repeat split. Qed.

(** An event without a file list changes nothing. *)
Lemma handleFileUpload_null (s : State) : handleFileUpload None s = s.
Proof. reflexivity. Qed.

(** *** The emphasis latch *)

(** No handler writes [false] to [showEmphasis]. *)
Lemma handle_keeps_showEmphasis (e : event) (s : State) :
  showEmphasis s = true -> showEmphasis (handle e s) = true.
Proof.
  intros H. destruct e; cbn -[Z.eqb];
    unfold goPrevious, goNext, previous_onClick, next_onClick,
      handleFileUpload, handleAnalogiesBlur, handleGenerate, handlePlayPause,
      handlePlaybackRateChange, handleSeek, handleTimeUpdate,
      handleLoadedMetadata;
    split_tests; cbn; auto.
Qed.

Lemma commit_showEmphasis (before after : State) :
  showEmphasis (commit before after) = showEmphasis after.
Proof. unfold commit. split_tests; reflexivity. Qed.

Lemma dispatch_keeps_showEmphasis (e : event) (s : State) :
  showEmphasis s = true -> showEmphasis (dispatch s e) = true.
Proof.
  intros H. unfold dispatch. rewrite commit_showEmphasis.
  apply handle_keeps_showEmphasis, H.
Qed.

Lemma run_keeps_showEmphasis (es : list event) :
  forall s, showEmphasis s = true -> showEmphasis (run s es) = true.
Proof.
  induction es as [|e es IH]; intros s H; [exact H|].
  apply IH, dispatch_keeps_showEmphasis, H.
Qed.

Lemma run_app (s : State) (es1 es2 : list event) :
  run s (es1 ++ es2) = run (run s es1) es2.
Proof. apply fold_left_app. Qed.

(** The blur handler is what sets the latch: it turns [showEmphasis] on
    when [analogies] is non-empty after trimming, and changes nothing
    otherwise. *)
Lemma handleAnalogiesBlur_sets (s : State) :
  (trim (analogies s) <> lit "" ->
     showEmphasis (handleAnalogiesBlur s) = true)
  /\ (trim (analogies s) = lit "" -> handleAnalogiesBlur s = s).
Proof.
  unfold handleAnalogiesBlur. split; intros H.
  - apply strict_neq_true in H. rewrite H. reflexivity.
  - rewrite H. reflexivity.
Qed.

(** C4. In a session (a run of events from the initial state), once
    [showEmphasis] is true it is true after every further event. *)
Theorem showEmphasis_never_reverts (es later : list event) :
  showEmphasis (run initial es) = true ->
  showEmphasis (run initial (es ++ later)) = true.
Proof.
  intros H. rewrite run_app. apply run_keeps_showEmphasis, H.
Qed.

(** *** Generation *)

Ltac Z_tests :=
  repeat match goal with
    | H : (_ =? _) = true |- _ => apply Z.eqb_eq in H
    | H : (_ =? _) = false |- _ => apply Z.eqb_neq in H
    | H : (_ <? _) = true |- _ => apply Z.ltb_lt in H
    | H : (_ <? _) = false |- _ => apply Z.ltb_ge in H
    | H : (_ && _)%bool = true |- _ => apply andb_true_iff in H; destruct H
    end.

Ltac unfold_handlers :=
  unfold goPrevious, goNext, next_enabled, footer_rendered,
    previous_onClick, next_onClick, handleFileUpload, handleAnalogiesBlur,
    handleGenerate, generateCallback, handlePlayPause,
    handlePlaybackRateChange, handleSeek, handleTimeUpdate,
    handleLoadedMetadata, steps_length.

Lemma handle_invariant (e : event) (s : State) :
  session_invariant s ->
  0 <= step (handle e s) <= 5
  /\ Forall (fun c => c = 4) (timeouts (handle e s))
  /\ audioRef (handle e s) = None.
Proof.
  intros (Hs & Ht & Ha). split; [|split].
  - destruct e; cbn -[Z.eqb Z.ltb]; unfold_handlers;
      rewrite ?Ha; split_tests; cbn -[Z.eqb Z.ltb]; Z_tests; try lia.
    inversion Ht; subst; lia.
  - destruct e; cbn -[Z.eqb Z.ltb]; unfold_handlers;
      rewrite ?Ha; split_tests; cbn -[Z.eqb Z.ltb]; Z_tests;
      try assumption.
    + apply Forall_app. split; [exact Ht|]. constructor; auto.
    + match goal with H : timeouts s = [] |- _ => rewrite H end. constructor.
    + inversion Ht; assumption.
  - destruct e; cbn -[Z.eqb Z.ltb]; unfold_handlers;
      rewrite ?Ha; split_tests; cbn -[Z.eqb Z.ltb]; try assumption;
      try discriminate; try reflexivity.
    Z_tests; lia.
Qed.

Lemma commit_fields (before after : State) :
  step (commit before after) = step after
  /\ timeouts (commit before after) = timeouts after
  /\ isGenerating (commit before after) = isGenerating after
  /\ audioUrl (commit before after) = audioUrl after
  /\ plan (commit before after) = plan after.
Proof. unfold commit. split_tests; cbn; auto. Qed.

Lemma dispatch_invariant (e : event) (s : State) :
  session_invariant s -> session_invariant (dispatch s e).
Proof.
  intros H. destruct (handle_invariant e s H) as (Hs & Ht & Ha).
  unfold dispatch, session_invariant.
  destruct (commit_fields s (handle e s)) as (-> & -> & _).
  split; [exact Hs|]. split; [exact Ht|].
  unfold commit. split_tests; cbn; Z_tests; try assumption; try reflexivity.
  all: lia.
Qed.

Lemma run_invariant (es : list event) :
  forall s, session_invariant s -> session_invariant (run s es).
Proof.
  induction es as [|e es IH]; intros s H; [exact H|].
  apply IH, dispatch_invariant, H.
Qed.

(** The result step is out of reach: no session shows step 6, nor ever
    mounts the audio element. *)
Lemma result_step_unreachable (es : list event) :
  step (run initial es) <> 6 /\ audioRef (run initial es) = None.
Proof.
  destruct (run_invariant es initial) as (Hs & _ & Ha).
  - repeat split; cbn; try lia. constructor.
  - split; [lia | exact Ha].
Qed.

(** Generate at the plan step, for any state: the click leaves the step
    index at 4 and queues a callback that captured 4; when the callback
    runs, it stores the audio reference and sets the step index to 5. *)
Lemma generate_from_plan_step (s : State) :
  step s = 4 -> isStepComplete s 4 = true -> timeouts s = [] ->
  let clicked := dispatch s Next in
  let completed := dispatch clicked TimerFired in
  step clicked = 4 /\ isGenerating clicked = true /\ timeouts clicked = [4]
  /\ step completed = 5 /\ isGenerating completed = false
  /\ audioUrl completed = generated_podcast_url.
Proof.
  intros H4 Hc Ht clicked completed.
  assert (E : handle Next s = handleGenerate s).
  { cbn. unfold goNext, next_enabled, footer_rendered, next_onClick.
    rewrite H4, Hc. reflexivity. }
  assert (C : step clicked = 4 /\ isGenerating clicked = true
              /\ timeouts clicked = [4]).
  { unfold clicked, dispatch.
    destruct (commit_fields s (handle Next s)) as (-> & -> & -> & _).
    rewrite E. cbn. rewrite H4, Ht. auto. }
  destruct C as (C1 & C2 & C3). repeat split; try assumption.
  all: unfold completed, dispatch;
    destruct (commit_fields clicked (handle TimerFired clicked))
      as (E1 & _ & E2 & E3 & _);
    rewrite ?E1, ?E2, ?E3; cbn; rewrite C3; reflexivity.
Qed.

(** C1, on the code.  At the plan step with a plan selected, Generate
    does not enter step 5: the step index stays 4 while the callback is
    pending.  When the callback completes, the audio reference is
    stored, but the step index becomes 5, the generating screen, and not
    6; from there no event moves it. *)
Theorem generate_stops_at_step_5 :
  let clicked := dispatch ready_to_generate Next in
  let completed := dispatch clicked TimerFired in
  step ready_to_generate = 4
  /\ isStepComplete ready_to_generate 4 = true
  /\ step clicked = 4 /\ isGenerating clicked = true
  /\ audioUrl completed = generated_podcast_url
  /\ step completed = 5
  /\ forall e, step (dispatch completed e) = 5.
Proof.
  cbv zeta. repeat split; try (vm_compute; reflexivity).
  intros e.
  set (s := dispatch (dispatch ready_to_generate Next) TimerFired).
  assert (Hs : step s = 5) by (vm_compute; reflexivity).
  assert (Ht : timeouts s = []) by (vm_compute; reflexivity).
  assert (Ha : audioRef s = None) by (vm_compute; reflexivity).
  clearbody s. unfold dispatch.
  destruct (commit_fields s (handle e s)) as (-> & _).
  destruct e; cbn -[Z.eqb Z.ltb]; unfold_handlers;
    rewrite ?Hs, ?Ht, ?Ha; cbn; rewrite ?Hs; reflexivity.
Qed.

(* ================================================================== *)
(** ** The player                                                      *)
(* ================================================================== *)

(** C5 as stated fails: with duration 120, [handleSeek (-5)] leaves
    [currentTime] at -5, not 0, and [handleSeek 500] leaves it at 500,
    not 120; the position handed to the element is the same unclamped
    value. *)
Lemma handleSeek_does_not_clamp :
  (duration player_120 == 120)%Q
  /\ ~ (currentTime (handleSeek (-5)%Q player_120) == 0)%Q
  /\ ~ (currentTime (handleSeek 500%Q player_120) == 120)%Q
  /\ option_map el_currentTime (audioRef (handleSeek (-5)%Q player_120))
     = Some (-5)%Q
  /\ option_map el_currentTime (audioRef (handleSeek 500%Q player_120))
     = Some 500%Q.
Proof.
  repeat split; try reflexivity; cbn; unfold Qeq; cbn; discriminate.
Qed.

(** C5, amended.  With an audio element mounted, [handleSeek t] hands
    [t] as it is to the element and to [currentTime], and leaves
    [duration] alone; so the result is within [0, duration] when [t]
    is. *)
Theorem handleSeek_sets_position (s : State) (a : HTMLAudioElement)
    (t : number) :
  audioRef s = Some a ->
  currentTime (handleSeek t s) = t
  /\ audioRef (handleSeek t s) = Some (media_set_currentTime t a)
  /\ duration (handleSeek t s) = duration s
  /\ ((0 <= t <= duration s)%Q ->
      (0 <= currentTime (handleSeek t s) <= duration (handleSeek t s))%Q).
Proof.
  intros H. unfold handleSeek. rewrite H. cbn. auto.
Qed.

(** Without an audio element, [handleSeek] does nothing. *)
Lemma handleSeek_unmounted (s : State) (t : number) :
  audioRef s = None -> handleSeek t s = s.
Proof. intros H. unfold handleSeek. rewrite H. reflexivity. Qed.

(** The bound is the Slider's: a value it emits reaches [handleSeek]
    only when it is within [0, duration]. *)
Lemma slider_seeks_in_range (s : State) (v : number) :
  handle (SliderChange v) s = s
  \/ (handle (SliderChange v) s = handleSeek v s
      /\ (0 <= v <= duration s)%Q).
Proof.
  cbn -[Z.eqb].
  destruct (step s =? 6); cbn; [|left; reflexivity].
  destruct (Qle_bool 0 v) eqn:E1; cbn; [|left; reflexivity].
  destruct (Qle_bool v (duration s)) eqn:E2; [|left; reflexivity].
  right. apply Qle_bool_iff in E1, E2. auto.
Qed.

(** *** Time display *)

(** The floor is the only integer in the unit interval below a number. *)
Lemma Qfloor_unique (x : Q) (z : Z) :
  (inject_Z z <= x)%Q -> (x < inject_Z (z + 1))%Q -> Qfloor x = z.
Proof.
  intros Hle Hlt.
  pose proof (Qfloor_le x) as Fle. pose proof (Qlt_floor x) as Flt.
  assert (z < Qfloor x + 1).
  { rewrite Zlt_Qlt. eapply Qle_lt_trans; [exact Hle | exact Flt]. }
  assert (Qfloor x < z + 1).
  { rewrite Zlt_Qlt. eapply Qle_lt_trans; [exact Fle | exact Hlt]. }
  lia.
Qed.

Section TimeParts.

Variable t : Q.
Hypothesis t_nonneg : (0 <= t)%Q.

Let whole := Qfloor t.

Lemma whole_nonneg : 0 <= whole.
Proof.
  unfold whole. change 0 with (Qfloor 0). apply Qfloor_resp_le, t_nonneg.
Qed.

Lemma whole_bounds : (inject_Z whole <= t /\ t < inject_Z whole + 1)%Q.
Proof.
  split; [apply Qfloor_le|].
  pose proof (Qlt_floor t) as H. rewrite inject_Z_plus in H. exact H.
Qed.

Lemma sixty_bounds :
  (inject_Z (whole / 60) * 60 <= t
   /\ t < (inject_Z (whole / 60) + 1) * 60)%Q.
Proof.
  destruct whole_bounds as (Hl & Hu).
  pose proof (Z.div_mod whole 60 ltac:(lia)) as E.
  pose proof (Z.mod_pos_bound whole 60 ltac:(lia)) as B.
  assert (L : (inject_Z (whole / 60) * 60 <= inject_Z whole)%Q).
  { change 60%Q with (inject_Z 60). rewrite <- inject_Z_mult, <- Zle_Qle.
    lia. }
  assert (U : (inject_Z whole + 1 <= (inject_Z (whole / 60) + 1) * 60)%Q).
  { change 60%Q with (inject_Z 60). change 1%Q with (inject_Z 1).
    rewrite <- !inject_Z_plus, <- inject_Z_mult, <- Zle_Qle. lia. }
  split; lra.
Qed.

(** The floor of the exact quotient by 60 is the integer quotient of the
    whole seconds by 60. *)
Lemma minutes_value : Math_floor (t / 60)%Q = whole / 60.
Proof.
  destruct sixty_bounds as (Hl & Hu). unfold Math_floor.
  apply Qfloor_unique.
  - apply Qle_shift_div_l; [reflexivity | exact Hl].
  - apply Qlt_shift_div_r; [reflexivity|].
    rewrite inject_Z_plus. exact Hu.
Qed.

Lemma truncate_quotient : truncate (t / 60)%Q = whole / 60.
Proof.
  unfold truncate.
  assert (H : (0 <= t / 60)%Q).
  { apply Qle_shift_div_l; [reflexivity | lra]. }
  apply Qle_bool_iff in H. rewrite H. apply minutes_value.
Qed.

(** [Math.floor(time % 60)] is the remainder of the whole seconds
    modulo 60. *)
Lemma seconds_value : Math_floor (remainder t 60%Q) = whole mod 60.
Proof.
  unfold Math_floor, remainder. rewrite truncate_quotient.
  destruct whole_bounds as (Hl & Hu).
  assert (E : (inject_Z (whole mod 60)
               == inject_Z whole - 60 * inject_Z (whole / 60))%Q).
  { rewrite Z.mod_eq by lia. unfold Z.sub.
    rewrite inject_Z_plus, inject_Z_opp, inject_Z_mult. reflexivity. }
  apply Qfloor_unique.
  - rewrite E. lra.
  - rewrite inject_Z_plus, E. change (inject_Z 1) with 1%Q. lra.
Qed.

End TimeParts.

(** An integer below 60 prints as its two digits after [padStart]. *)
Lemma two_digits (expo : Z -> jsstring) (n : Z) :
  0 <= n < 60 ->
  padStart 2 (lit "0") (Number_toString expo n)
  = [Z.to_N (48 + n / 10); Z.to_N (48 + n mod 10)].
Proof.
  intros H. rewrite <- (Z2Nat.id n) by lia.
  assert (B : (Z.to_nat n < 60)%nat) by lia.
  generalize dependent (Z.to_nat n). clear H. intros k B.
  do 60 (destruct k as [|k]; [vm_compute; reflexivity|]).
  lia.
Qed.

(** The digits [decimal] prints are in normal form: no leading zero. *)
Lemma decimal_digits_normal (n : Z) :
  Decimal.norm (Z.to_int n) = Z.to_int n.
Proof. rewrite <- (DecimalZ.to_of (Z.to_int n)), DecimalZ.of_to. reflexivity. Qed.

(** *** Binary64 rounding *)

(** Powers of two. *)
Lemma pow2_pos (e : Z) : (0 < pow2 e)%Q.
Proof. apply Qpower_0_lt. reflexivity. Qed.

Lemma pow2_add (a b : Z) : (pow2 (a + b) == pow2 a * pow2 b)%Q.
Proof. apply Qpower_plus. discriminate. Qed.

Lemma pow2_lt (a b : Z) : a < b -> (pow2 a < pow2 b)%Q.
Proof. intros H. apply Qpower_lt_compat_l; [exact H | reflexivity]. Qed.

Lemma pow2_le (a b : Z) : a <= b -> (pow2 a <= pow2 b)%Q.
Proof. intros H. apply Qpower_le_compat_l; [exact H | discriminate]. Qed.

Lemma pow2_lt_inv (a b : Z) : (pow2 a < pow2 b)%Q -> a < b.
Proof. intros H. apply (Qpower_lt_compat_l_inv 2); [exact H | reflexivity]. Qed.

Lemma pow2_Z (e : Z) : 0 <= e -> (pow2 e == inject_Z (2 ^ e))%Q.
Proof. intros H. unfold pow2. rewrite Zpower_Qpower by exact H. reflexivity. Qed.

Lemma pow2_inv (e : Z) : (pow2 (- e) * pow2 e == 1)%Q.
Proof. rewrite <- pow2_add. replace (- e + e) with 0 by lia. reflexivity. Qed.

(** The binary exponent. *)
Lemma ilog2_spec (x : Q) :
  (0 < x)%Q -> (pow2 (ilog2 x) <= x /\ x < pow2 (ilog2 x + 1))%Q.
Proof.
  intros Hx. unfold ilog2. destruct (Qle_bool 1 x) eqn:E.
  - apply Qle_bool_iff in E.
    assert (F : 1 <= Qfloor x).
    { change 1 with (Qfloor 1). apply Qfloor_resp_le, E. }
    pose proof (Z.log2_spec (Qfloor x) ltac:(lia)) as (L & U).
    pose proof (Z.log2_nonneg (Qfloor x)) as N.
    rewrite !pow2_Z by lia. split.
    + apply Qle_trans with (inject_Z (Qfloor x)); [|apply Qfloor_le].
      rewrite <- Zle_Qle. exact L.
    + apply Qlt_le_trans with (inject_Z (Qfloor x + 1)); [apply Qlt_floor|].
      rewrite <- Zle_Qle. replace (Z.log2 (Qfloor x) + 1) with (Z.succ (Z.log2 (Qfloor x))) by lia. lia.
  - assert (X1 : (x < 1)%Q).
    { apply Qnot_le_lt. intros K. apply Qle_bool_iff in K. congruence. }
    set (y := (/ x)%Q).
    assert (Y0 : (0 < y)%Q) by (apply Qinv_lt_0_compat, Hx).
    assert (XY : (x * y == 1)%Q) by (apply Qmult_inv_r; intros K; rewrite K in Hx; discriminate).
    assert (Y1 : (1 < y)%Q).
    { apply Qnot_le_lt. intros K.
      assert ((x * y < 1)%Q); [|rewrite XY in H; discriminate].
      apply Qle_lt_trans with (x * 1)%Q; [|rewrite Qmult_1_r; exact X1].
      apply Qmult_le_l; assumption. }
    set (c := Qceiling y).
    assert (C : 1 < c).
    { rewrite Zlt_Qlt. apply Qlt_le_trans with y; [exact Y1 | apply Qle_ceiling]. }
    pose proof (Z.log2_up_spec c C) as (L & U).
    pose proof (Z.log2_up_pos c C) as P.
    set (l := Z.log2_up c) in *.
    split.
    + (* 2^-l <= x : since y <= 2^l *)
      assert (YU : (y <= pow2 l)%Q).
      { rewrite pow2_Z by lia. apply Qle_trans with (inject_Z c); [apply Qle_ceiling|].
        rewrite <- Zle_Qle. exact U. }
      apply Qmult_le_r with (z := y); [exact Y0|]. rewrite XY.
      apply Qle_trans with (pow2 (- l) * pow2 l)%Q; [|rewrite pow2_inv; apply Qle_refl].
      apply Qmult_le_l; [apply pow2_pos | exact YU].
    + assert (YL : (pow2 (l - 1) < y)%Q).
      { rewrite pow2_Z by lia.
        apply Qle_lt_trans with (inject_Z (c - 1)); [|apply Qceiling_lt].
        rewrite <- Zle_Qle. replace (l - 1) with (Z.pred l) by lia. lia. }
      apply Qmult_lt_r with (z := y); [exact Y0|]. rewrite XY.
      apply Qle_lt_trans with (pow2 (- l + 1) * pow2 (l - 1))%Q.
      * rewrite <- pow2_add. replace (- l + 1 + (l - 1)) with 0 by lia. apply Qle_refl.
      * apply Qmult_lt_l; [apply pow2_pos | exact YL].
Qed.

Lemma ilog2_unique (x : Q) (e : Z) :
  (pow2 e <= x)%Q -> (x < pow2 (e + 1))%Q -> ilog2 x = e.
Proof.
  intros L U.
  assert (Hx : (0 < x)%Q) by (eapply Qlt_le_trans; [apply pow2_pos | exact L]).
  destruct (ilog2_spec x Hx) as (L' & U').
  assert (e < ilog2 x + 1) by (apply pow2_lt_inv; eapply Qle_lt_trans; eassumption).
  assert (ilog2 x < e + 1) by (apply pow2_lt_inv; eapply Qle_lt_trans; eassumption).
  lia.
Qed.

Lemma ilog2_lt (x : Q) (e : Z) : (0 < x)%Q -> (x < pow2 e)%Q -> ilog2 x < e.
Proof.
  intros Hx U. destruct (ilog2_spec x Hx) as (L & _).
  apply pow2_lt_inv. eapply Qle_lt_trans; eassumption.
Qed.

Lemma ilog2_ge (x : Q) (e : Z) : (pow2 e <= x)%Q -> e <= ilog2 x.
Proof.
  intros L.
  assert (Hx : (0 < x)%Q) by (eapply Qlt_le_trans; [apply pow2_pos | exact L]).
  destruct (ilog2_spec x Hx) as (_ & U).
  assert (e < ilog2 x + 1) by (apply pow2_lt_inv; eapply Qle_lt_trans; eassumption).
  lia.
Qed.

(** Rounding to an integer. *)
Lemma round_half_even_comp (p q : Q) :
  (p == q)%Q -> round_half_even p = round_half_even q.
Proof.
  intros E. unfold round_half_even. rewrite (Qfloor_comp p q E).
  assert (C : (p - inject_Z (Qfloor q) ?= 1 # 2)%Q
              = (q - inject_Z (Qfloor q) ?= 1 # 2)%Q).
  { apply Qcompare_comp; [rewrite E|]; reflexivity. }
  rewrite C. reflexivity.
Qed.

Lemma round_half_even_bounds (q : Q) :
  (q - (1 # 2) <= inject_Z (round_half_even q) <= q + (1 # 2))%Q
  /\ Qfloor q <= round_half_even q <= Qfloor q + 1.
Proof.
  unfold round_half_even.
  pose proof (Qfloor_le q) as L. pose proof (Qlt_floor q) as U.
  rewrite inject_Z_plus in U. change (inject_Z 1) with 1%Q in U.
  destruct (q - inject_Z (Qfloor q) ?= 1 # 2)%Q eqn:C.
  - apply Qeq_alt in C.
    destruct (Z.even (Qfloor q)); rewrite ?inject_Z_plus;
      change (inject_Z 1) with 1%Q; split; try lia; split; lra.
  - apply Qlt_alt in C. split; [split; lra | lia].
  - apply Qgt_alt in C. rewrite inject_Z_plus. change (inject_Z 1) with 1%Q.
    split; [split; lra | lia].
Qed.

Lemma round_half_even_Z (n : Z) : round_half_even (inject_Z n) = n.
Proof.
  unfold round_half_even. rewrite Qfloor_Z.
  assert (C : (inject_Z n - inject_Z n ?= 1 # 2)%Q = Lt).
  { apply Qlt_alt. setoid_replace (inject_Z n - inject_Z n)%Q with 0%Q by ring.
    reflexivity. }
  rewrite C. reflexivity.
Qed.

(** The unit in the last place. *)
Lemma ulp_pos (x : Q) : (0 < ulp x)%Q.
Proof. apply pow2_pos. Qed.

Lemma ilog2_comp (x y : Q) : (x == y)%Q -> ilog2 x = ilog2 y.
Proof.
  intros E. unfold ilog2.
  assert (B : Qle_bool 1 x = Qle_bool 1 y).
  { destruct (Qle_bool 1 x) eqn:X; destruct (Qle_bool 1 y) eqn:Y; auto.
    - apply Qle_bool_iff in X. rewrite E in X. apply Qle_bool_iff in X. congruence.
    - apply Qle_bool_iff in Y. rewrite <- E in Y. apply Qle_bool_iff in Y. congruence. }
  rewrite B, (Qfloor_comp x y E).
  assert (I : (/ x == / y)%Q) by (rewrite E; reflexivity).
  rewrite (Qceiling_comp _ _ I). reflexivity.
Qed.

Lemma ulp_comp (x y : Q) : (x == y)%Q -> ulp x = ulp y.
Proof. intros E. unfold ulp. rewrite (ilog2_comp x y E). reflexivity. Qed.

Lemma round_pos_comp (x y : Q) : (x == y)%Q -> (round_pos x == round_pos y)%Q.
Proof.
  intros E. unfold round_pos. rewrite (ulp_comp x y E).
  rewrite (round_half_even_comp (x / ulp y) (y / ulp y)); [reflexivity|].
  rewrite E. reflexivity.
Qed.

Lemma round64_comp (x y : Q) : (x == y)%Q -> (round64 x == round64 y)%Q.
Proof.
  intros E. unfold round64.
  assert (C : (x ?= 0)%Q = (y ?= 0)%Q) by (apply Qcompare_comp; [exact E | reflexivity]).
  rewrite C. destruct (y ?= 0)%Q; [reflexivity | |apply round_pos_comp, E].
  apply Qopp_comp, round_pos_comp. rewrite E. reflexivity.
Qed.

Lemma round64_pos (x : Q) : (0 < x)%Q -> round64 x = round_pos x.
Proof.
  intros H. unfold round64. apply Qgt_alt in H. rewrite H. reflexivity.
Qed.

(** The rounding error is at most half a unit in the last place. *)
Lemma round_pos_error (x : Q) :
  (x - (1 # 2) * ulp x <= round_pos x <= x + (1 # 2) * ulp x)%Q.
Proof.
  unfold round_pos. pose proof (ulp_pos x) as U.
  destruct (round_half_even_bounds (x / ulp x)) as ((L & H) & _).
  set (r := inject_Z (round_half_even (x / ulp x))) in *.
  set (u := ulp x) in *.
  assert (N : ~ (u == 0)%Q) by (intros K; rewrite K in U; discriminate).
  assert (A : ((x / u - (1 # 2)) * u == x - (1 # 2) * u)%Q) by (field; exact N).
  assert (B : ((x / u + (1 # 2)) * u == x + (1 # 2) * u)%Q) by (field; exact N).
  pose proof (Qmult_le_compat_r _ _ u L (Qlt_le_weak _ _ U)) as L'.
  pose proof (Qmult_le_compat_r _ _ u H (Qlt_le_weak _ _ U)) as H'.
  rewrite A in L'. rewrite B in H'. split; assumption.
Qed.

Lemma round_pos_nonneg (x : Q) : (0 <= x)%Q -> (0 <= round_pos x)%Q.
Proof.
  intros H. unfold round_pos. pose proof (ulp_pos x) as U.
  apply Qmult_le_0_compat; [|apply Qlt_le_weak, U].
  destruct (round_half_even_bounds (x / ulp x)) as (_ & (F & _)).
  change 0%Q with (inject_Z 0). rewrite <- Zle_Qle.
  apply Z.le_trans with (Qfloor (x / ulp x)); [|exact F].
  change 0 with (Qfloor 0). apply Qfloor_resp_le.
  apply Qle_shift_div_l; [exact U|]. lra.
Qed.

Lemma ulp_ge (x : Q) : (pow2 (ilog2 x - 52) <= ulp x)%Q.
Proof. unfold ulp. apply pow2_le. lia. Qed.

Lemma ulp_normal (x : Q) : -1022 <= ilog2 x -> ulp x = pow2 (ilog2 x - 52).
Proof. intros H. unfold ulp. rewrite Z.max_l by lia. reflexivity. Qed.

(** A multiple of its own unit is not moved by the rounding. *)
Lemma round_pos_grid (x : Q) (k : Z) :
  (x == inject_Z k * ulp x)%Q -> (round_pos x == x)%Q.
Proof.
  intros E. unfold round_pos. pose proof (ulp_pos x) as U.
  assert (N : ~ (ulp x == 0)%Q) by (intros K; rewrite K in U; discriminate).
  assert (D : (x / ulp x == inject_Z k)%Q).
  { rewrite E at 1. field. exact N. }
  rewrite (round_half_even_comp _ _ D), round_half_even_Z. symmetry. exact E.
Qed.

(** Integers up to 2^53 are doubles. *)
Lemma round64_Z (n : Z) :
  0 <= n < 2 ^ 53 -> (round64 (inject_Z n) == inject_Z n)%Q.
Proof.
  intros H. destruct (Z.eq_dec n 0) as [-> | N0]; [reflexivity|].
  assert (P : (0 < inject_Z n)%Q).
  { change 0%Q with (inject_Z 0). rewrite <- Zlt_Qlt. lia. }
  rewrite (round64_pos _ P).
  assert (L : 0 <= ilog2 (inject_Z n)).
  { apply ilog2_ge. change (pow2 0) with (inject_Z 1). rewrite <- Zle_Qle. lia. }
  assert (U : ilog2 (inject_Z n) < 53).
  { apply ilog2_lt; [exact P|]. rewrite pow2_Z by lia. rewrite <- Zlt_Qlt. lia. }
  assert (Un : ulp (inject_Z n) = pow2 (ilog2 (inject_Z n) - 52))
    by (apply ulp_normal; lia).
  set (e := ilog2 (inject_Z n)) in *.
  apply round_pos_grid with (k := n * 2 ^ (52 - e)).
  rewrite Un.
  rewrite inject_Z_mult, <- (pow2_Z (52 - e)) by lia.
  rewrite <- Qmult_assoc, <- pow2_add.
  replace (52 - e + (e - 52)) with 0 by lia. change (pow2 0) with 1%Q. ring.
Qed.

(** From 1 on, rounding does not go below the power of two under the
    number. *)
Lemma round_pos_ge_pow2 (x : Q) :
  (1 <= x)%Q -> (pow2 (ilog2 x) <= round_pos x)%Q.
Proof.
  intros H.
  assert (L : 0 <= ilog2 x) by (apply ilog2_ge; exact H).
  assert (P : (0 < x)%Q) by lra.
  destruct (ilog2_spec x P) as (Lo & _).
  unfold round_pos. rewrite (ulp_normal x) by lia.
  set (e := ilog2 x) in *. pose proof (pow2_pos (e - 52)) as U.
  destruct (round_half_even_bounds (x / pow2 (e - 52))) as (_ & (F & _)).
  assert (Q52 : (inject_Z (2 ^ 52) <= x / pow2 (e - 52))%Q).
  { apply Qle_shift_div_l; [exact U|].
    rewrite <- (pow2_Z 52), <- pow2_add by lia.
    replace (52 + (e - 52)) with e by lia. exact Lo. }
  apply Qfloor_resp_le in Q52. rewrite Qfloor_Z in Q52.
  apply Qle_trans with (inject_Z (2 ^ 52) * pow2 (e - 52))%Q.
  - rewrite <- (pow2_Z 52), <- pow2_add by lia.
    replace (52 + (e - 52)) with e by lia. apply Qle_refl.
  - apply Qmult_le_compat_r; [|apply Qlt_le_weak, U].
    rewrite <- Zle_Qle. lia.
Qed.

(** The grid of a double below 2^53: it is a multiple of its unit, and
    every integer is a multiple of that unit too. *)
Lemma double_grid (t : Q) :
  (0 < t)%Q -> (t < pow2 53)%Q -> (round64 t == t)%Q ->
  exists k N : Z,
    (t == inject_Z k * ulp t)%Q /\ (inject_Z N * ulp t == 1)%Q.
Proof.
  intros P B D. rewrite (round64_pos _ P) in D.
  exists (round_half_even (t / ulp t)).
  pose proof (ilog2_lt t 53 P B) as E.
  unfold ulp at 2. set (eu := Z.max (ilog2 t - 52) (-1074)).
  assert (Eu : eu <= 0) by lia.
  exists (2 ^ (- eu)). split.
  - symmetry. exact D.
  - rewrite <- pow2_Z by lia. apply pow2_inv.
Qed.

(** Two multiples of the unit that differ, differ by a unit at least. *)
Lemma grid_gap (t u : Q) (k N M : Z) :
  (0 < u)%Q -> (t == inject_Z k * u)%Q -> (inject_Z N * u == 1)%Q ->
  (inject_Z M < t)%Q -> (inject_Z M + u <= t)%Q.
Proof.
  intros U T I H.
  assert (EM : (inject_Z M == inject_Z (M * N) * u)%Q).
  { rewrite inject_Z_mult, <- Qmult_assoc, I. ring. }
  assert (K : M * N < k).
  { destruct (Z.lt_ge_cases (M * N) k) as [K | K]; [exact K|].
    exfalso. apply (Qlt_not_le _ _ H). rewrite T, EM.
    apply Qmult_le_compat_r; [rewrite <- Zle_Qle; exact K | apply Qlt_le_weak, U]. }
  rewrite T, EM.
  apply Qle_trans with (inject_Z (M * N + 1) * u)%Q.
  - rewrite inject_Z_plus. apply Qle_lteq. right. ring.
  - apply Qmult_le_compat_r; [rewrite <- Zle_Qle; lia | apply Qlt_le_weak, U].
Qed.

Lemma grid_gap_above (t u : Q) (k N M : Z) :
  (0 < u)%Q -> (t == inject_Z k * u)%Q -> (inject_Z N * u == 1)%Q ->
  (t < inject_Z M)%Q -> (t + u <= inject_Z M)%Q.
Proof.
  intros U T I H.
  assert (EM : (inject_Z M == inject_Z (M * N) * u)%Q).
  { rewrite inject_Z_mult, <- Qmult_assoc, I. ring. }
  assert (K : k < M * N).
  { destruct (Z.lt_ge_cases k (M * N)) as [K | K]; [exact K|].
    exfalso. apply (Qlt_not_le _ _ H). rewrite T, EM.
    apply Qmult_le_compat_r; [rewrite <- Zle_Qle; exact K | apply Qlt_le_weak, U]. }
  rewrite T, EM.
  apply Qle_trans with (inject_Z (k + 1) * u)%Q.
  - rewrite inject_Z_plus. apply Qle_lteq. right. ring.
  - apply Qmult_le_compat_r; [rewrite <- Zle_Qle; lia | apply Qlt_le_weak, U].
Qed.

(** Dividing a double below 2^53 by 60 in double arithmetic and taking
    the floor gives the floor of the exact quotient. *)
Lemma floor_divide_60 (t : Q) :
  (0 <= t)%Q -> (t < pow2 53)%Q -> (round64 t == t)%Q ->
  Qfloor (Number_divide t 60%Q) = Qfloor (t / 60).
Proof.
  intros T0 B D. unfold Number_divide.
  destruct (Qlt_le_dec 0 t) as [P | Z0].
  2:{ assert (E : (t / 60 == 0)%Q).
      { assert (t == 0)%Q by (apply Qle_antisym; assumption).
        rewrite H. reflexivity. }
      rewrite (Qfloor_comp _ _ (round64_comp _ _ E)), (Qfloor_comp _ _ E).
      reflexivity. }
  set (q := (t / 60)%Q). set (m := Qfloor q).
  assert (Q0 : (0 < q)%Q) by (unfold q; apply Qlt_shift_div_l; [reflexivity | lra]).
  assert (TQ : (t == 60 * q)%Q) by (unfold q; field).
  pose proof (Qfloor_le q) as ML. pose proof (Qlt_floor q) as MU. fold m in ML, MU.
  assert (M0 : 0 <= m).
  { unfold m. change 0 with (Qfloor 0). apply Qfloor_resp_le. lra. }
  destruct (double_grid t P B D) as (k & N & G & I).
  pose proof (ulp_pos t) as U. pose proof (ulp_ge t) as UG.
  set (u := ulp t) in *.
  (* the gap above *)
  assert (A : (60 * q + u <= 60 * inject_Z (m + 1))%Q).
  { assert (H : (t < inject_Z (60 * (m + 1)))%Q).
    { rewrite inject_Z_mult. change (inject_Z 60) with 60%Q. lra. }
    pose proof (grid_gap_above t u k N _ U G I H) as H'.
    rewrite inject_Z_mult in H'. change (inject_Z 60) with 60%Q in H'. lra. }
  rewrite (round64_pos _ Q0).
  destruct (Qlt_le_dec (inject_Z (60 * m)) t) as [Lt | Ge].
  - (* strictly inside *)
    pose proof (grid_gap t u k N _ U G I Lt) as H'.
    rewrite inject_Z_mult in H'. change (inject_Z 60) with 60%Q in H'.
    assert (Bq : (60 * inject_Z m + u <= 60 * q)%Q) by lra.
    pose proof (round_pos_error q) as (RL & RU).
    pose proof (round_pos_nonneg q (Qlt_le_weak _ _ Q0)) as RN.
    destruct (ilog2_spec t P) as (_ & TU).
    assert (EQ : ilog2 q < ilog2 t - 4).
    { apply ilog2_lt; [exact Q0|].
      assert (S : (pow2 (ilog2 t + 1) == 32 * pow2 (ilog2 t - 4))%Q).
      { replace (ilog2 t + 1) with (5 + (ilog2 t - 4)) by lia.
        rewrite pow2_add. reflexivity. }
      pose proof (pow2_pos (ilog2 t - 4)). lra. }
    apply Qfloor_unique.
    + destruct (Z_le_gt_dec (-1074) (ilog2 q - 52)) as [Nm | Sub].
      * assert (Uq : (ulp q <= pow2 (ilog2 t - 57))%Q).
        { unfold ulp. rewrite Z.max_l by lia. apply pow2_le. lia. }
        assert (S : (pow2 (ilog2 t - 52) == 32 * pow2 (ilog2 t - 57))%Q).
        { replace (ilog2 t - 52) with (5 + (ilog2 t - 57)) by lia.
          rewrite pow2_add. reflexivity. }
        pose proof (pow2_pos (ilog2 t - 57)). lra.
      * assert (m = 0).
        { unfold m. apply Qfloor_unique; [change (inject_Z 0) with 0%Q; lra|].
          destruct (ilog2_spec q Q0) as (_ & QU).
          pose proof (pow2_le (ilog2 q + 1) 0 ltac:(lia)) as K.
          change (pow2 0) with 1%Q in K. change (inject_Z (0 + 1)) with 1%Q. lra. }
        subst m. rewrite H. exact RN.
    + destruct (Z_le_gt_dec (-1074) (ilog2 q - 52)) as [Nm | Sub].
      * assert (Uq : (ulp q <= pow2 (ilog2 t - 57))%Q).
        { unfold ulp. rewrite Z.max_l by lia. apply pow2_le. lia. }
        assert (S : (pow2 (ilog2 t - 52) == 32 * pow2 (ilog2 t - 57))%Q).
        { replace (ilog2 t - 52) with (5 + (ilog2 t - 57)) by lia.
          rewrite pow2_add. reflexivity. }
        pose proof (pow2_pos (ilog2 t - 57)). pose proof (ulp_pos q). lra.
      * destruct (ilog2_spec q Q0) as (_ & QU).
        pose proof (pow2_le (ilog2 q + 1) (-2) ltac:(lia)) as K.
        assert (Uq : (ulp q <= pow2 (-2))%Q).
        { unfold ulp. rewrite Z.max_r by lia. apply pow2_le. lia. }
        change (pow2 (-2)) with (1 # 4)%Q in K, Uq.
        apply Qlt_le_trans with 1%Q; [lra|].
        change 1%Q with (inject_Z 1). rewrite <- Zle_Qle. lia.
  - (* an exact multiple of 60 *)
    assert (E : (q == inject_Z m)%Q).
    { rewrite inject_Z_mult in Ge. change (inject_Z 60) with 60%Q in Ge.
      apply Qle_antisym; lra. }
    assert (Mb : m < 2 ^ 53).
    { rewrite Zlt_Qlt. rewrite <- (pow2_Z 53) by lia. lra. }
    rewrite <- (round64_pos _ Q0).
    rewrite (Qfloor_comp _ _ (round64_comp _ _ E)).
    rewrite (Qfloor_comp _ _ (round64_Z m (conj M0 Mb))). apply Qfloor_Z.
Qed.

(** Shortest digits. *)
Lemma inject_Z_inj (a b : Z) : (inject_Z a == inject_Z b)%Q -> a = b.
Proof. unfold Qeq. cbn. lia. Qed.

Lemma names_small (n c : Z) :
  0 <= n < 2 ^ 53 -> 0 <= c -> names n c = true -> c = n.
Proof.
  intros Hn Hc H. unfold names in H. apply Qeq_bool_iff in H.
  destruct (Z.lt_ge_cases c (2 ^ 53)) as [S | L].
  - rewrite (round64_Z c (conj Hc S)) in H. apply inject_Z_inj, H.
  - exfalso.
    assert (P : (pow2 53 <= inject_Z c)%Q).
    { rewrite pow2_Z by lia. rewrite <- Zle_Qle. exact L. }
    assert (P1 : (1 <= inject_Z c)%Q).
    { change 1%Q with (inject_Z 1). rewrite <- Zle_Qle. lia. }
    assert (P0 : (0 < inject_Z c)%Q).
    { change 0%Q with (inject_Z 0). rewrite <- Zlt_Qlt. lia. }
    rewrite (round64_pos _ P0) in H.
    pose proof (round_pos_ge_pow2 _ P1) as G.
    pose proof (pow2_le 53 _ (ilog2_ge _ _ P)) as G'.
    assert (K : (pow2 53 <= inject_Z n)%Q).
    { rewrite <- H. eapply Qle_trans; eassumption. }
    rewrite pow2_Z in K by lia. rewrite <- Zle_Qle in K. lia.
Qed.

Lemma candidates_nonneg (n j c : Z) :
  0 <= n -> In c (candidates n j) -> 0 <= c.
Proof.
  intros Hn. unfold candidates.
  assert (P : 0 <= 10 ^ j) by (apply Z.pow_nonneg; lia).
  assert (Q : 0 <= n / 10 ^ j * 10 ^ j).
  { destruct (Z.eq_dec (10 ^ j) 0) as [E | E].
    - rewrite E. lia.
    - apply Z.mul_nonneg_nonneg; [apply Z.div_pos; lia | lia]. }
  destruct (_ <=? _); cbn; intros [<- | [<- | []]]; lia.
Qed.

(** Below 2^53 the shortest digits that name a double are all of its
    digits. *)
Lemma printed_small (n : Z) : 0 <= n < 2 ^ 53 -> printed n = n.
Proof.
  intros Hn. unfold printed.
  set (l := flat_map _ _).
  assert (A : forall c, In c (filter (names n) l) -> c = n).
  { intros c Hc. apply filter_In in Hc. destruct Hc as (I & Nm).
    apply names_small; [exact Hn | | exact Nm].
    unfold l in I. apply in_flat_map in I. destruct I as (k & _ & I).
    eapply candidates_nonneg; [|exact I]. lia. }
  destruct (filter (names n) l) as [|c r]; [reflexivity|].
  apply A. left. reflexivity.
Qed.

(** The two times at which C6 fails are doubles. *)
Lemma large_times_are_doubles :
  (round64 (inject_Z (60 * 2 ^ 69)) == inject_Z (60 * 2 ^ 69))%Q
  /\ (round64 (inject_Z (10 ^ 21)) == inject_Z (10 ^ 21))%Q.
Proof. split; vm_compute; reflexivity. Qed.

(** C6 as stated fails on large times.  At 60 * 2^69 seconds the
    minutes are [floor(t/60) = 2^69 = 590295810358705651712], but
    Number::toString prints the shortest digits that name the double,
    "590295810358705700000".  At 10^21 seconds the double quotient
    [t / 60] is not the exact one: its floor is 16666666666666665984,
    which prints as "16666666666666666000", where
    [floor(t/60) = 16666666666666666666]. *)
Lemma formatTime_large_minutes :
  Qfloor (inject_Z (60 * 2 ^ 69) / 60) = 590295810358705651712
  /\ formatTime (fun _ => lit "") (inject_Z (60 * 2 ^ 69))
     = lit "590295810358705700000:00"
  /\ formatTime (fun _ => lit "") (inject_Z (60 * 2 ^ 69))
     <> decimal (Qfloor (inject_Z (60 * 2 ^ 69) / 60)) ++ lit ":00"
  /\ Qfloor (inject_Z (10 ^ 21) / 60) = 16666666666666666666
  /\ formatTime (fun _ => lit "") (inject_Z (10 ^ 21))
     = lit "16666666666666666000:40"
  /\ formatTime (fun _ => lit "") (inject_Z (10 ^ 21))
     <> decimal (Qfloor (inject_Z (10 ^ 21) / 60)) ++ lit ":40".
Proof.
  repeat split; try (vm_compute; reflexivity); vm_compute; discriminate.
Qed.

(** C6, amended.  For a double [t] with [0 <= t < 2^53], [formatTime t]
    is the decimal digits of the minutes [floor(t/60)], unpadded, a
    colon, and the seconds [floor(t mod 60)] as exactly two decimal
    digits; [formatTime 0 = "0:00"], [formatTime 65 = "1:05"],
    [formatTime 599 = "9:59"]. *)
Theorem formatTime_M_SS (expo : Z -> jsstring) (t : number) :
  (0 <= t)%Q -> (t < inject_Z (2 ^ 53))%Q -> (round64 t == t)%Q ->
  let minutes := Qfloor (t / 60) in
  let seconds := Qfloor (remainder t 60%Q) in
  minutes = Qfloor t / 60 /\ seconds = Qfloor t mod 60
  /\ 0 <= seconds < 60
  /\ formatTime expo t
     = decimal minutes ++ lit ":"
       ++ [Z.to_N (48 + seconds / 10); Z.to_N (48 + seconds mod 10)]
  /\ formatTime expo 0%Q = lit "0:00"
  /\ formatTime expo 65%Q = lit "1:05"
  /\ formatTime expo 599%Q = lit "9:59".
Proof.
  intros Ht Hb Hd minutes seconds.
  assert (Em : minutes = Qfloor t / 60) by apply minutes_value.
  assert (Es : seconds = Qfloor t mod 60) by (apply seconds_value, Ht).
  assert (Bs : 0 <= seconds < 60).
  { rewrite Es. apply Z.mod_pos_bound. lia. }
  split; [exact Em|]. split; [exact Es|]. split; [exact Bs|].
  split; [|repeat split; vm_compute; reflexivity].
  assert (Hb' : (t < pow2 53)%Q) by (rewrite pow2_Z by lia; exact Hb).
  assert (Wb : 0 <= Qfloor t < 2 ^ 53).
  { split; [apply whole_nonneg, Ht|].
    rewrite Zlt_Qlt. eapply Qle_lt_trans; [apply Qfloor_le | exact Hb]. }
  assert (Mb : 0 <= minutes < 2 ^ 53).
  { rewrite Em. split; [apply Z.div_pos; lia|].
    apply Z.le_lt_trans with (Qfloor t); [|lia].
    apply Z.div_le_upper_bound; lia. }
  unfold formatTime, Math_floor.
  rewrite (floor_divide_60 t Ht Hb' Hd). fold minutes. fold seconds.
  rewrite (two_digits expo seconds Bs). f_equal.
  unfold Number_toString.
  replace (Z.abs minutes <? 10 ^ 21) with true
    by (symmetry; apply Z.ltb_lt; lia).
  rewrite Z.abs_eq by lia. rewrite (printed_small minutes Mb).
  destruct (Z.eq_dec minutes 0) as [-> | N]; [reflexivity|].
  rewrite Z.sgn_pos by lia. rewrite Z.mul_1_l. reflexivity.
Qed.

(* ================================================================== *)
(** ** The proxies                                                     *)
(* ================================================================== *)

(** C8 as stated fails: an upstream answer with status 500 and a JSON
    body comes back from the proxy as a 200 carrying that body. *)
Lemma generate_podcast_forwards_upstream_failure :
  upstream_ok {| up_status := 500;
                 up_json := Some (JObject [(lit "detail", JString (lit "boom"))]) |}
  = false
  /\ is_success (generate_podcast_handler failing_upstream post_request) = true
  /\ generate_podcast_handler failing_upstream post_request
     = {| statusCode := 200; headers := [];
          sent := Json (JObject [(lit "detail", JString (lit "boom"))]) |}.
Proof. repeat split. Qed.

(** C8, amended.  For a POST, the generate_podcast proxy answers with
    the 500 error when the upstream fetch fails at the network level or
    the upstream body is not JSON; an upstream answer with a JSON body
    is forwarded with status 200 whatever the upstream status was. *)
Theorem generate_podcast_outcomes
    (fetch : jsstring -> option RequestInit -> fetch_result) (req : request) :
  method req = lit "POST" ->
  match fetch generate_url (generate_init req) with
  | Rejected =>
      generate_podcast_handler fetch req
      = internal_error (lit "Failed to generate podcast")
      /\ is_success (generate_podcast_handler fetch req) = false
  | Resolved r =>
      match up_json r with
      | None =>
          generate_podcast_handler fetch req
          = internal_error (lit "Failed to generate podcast")
          /\ is_success (generate_podcast_handler fetch req) = false
      | Some data =>
          generate_podcast_handler fetch req
          = {| statusCode := 200; headers := []; sent := Json data |}
      end
  end.
Proof.
  intros Hm. unfold generate_podcast_handler, forward.
  replace (str_eqb (method req) (lit "POST")) with true
    by (symmetry; apply str_eqb_eq, Hm).
  destruct (fetch generate_url (generate_init req)) as [|r];
    [split; reflexivity|].
  destruct (up_json r); [reflexivity | split; reflexivity].
Qed.

(** C9. When the upstream fetch of a proxy throws, the proxy answers
    with status 500 and the JSON body [{ "error": message }]:
    "Failed to generate podcast" for a POST to generate_podcast,
    "Failed to fetch podcast status" for a GET to podcast_status. *)
Theorem proxy_fetch_failure
    (fetch : jsstring -> option RequestInit -> fetch_result) (req : request) :
  (method req = lit "POST" ->
   fetch generate_url (generate_init req) = Rejected ->
   generate_podcast_handler fetch req
   = {| statusCode := 500; headers := [];
        sent := Json (JObject [(lit "error",
                                JString (lit "Failed to generate podcast"))]) |})
  /\ (method req = lit "GET" ->
      fetch (status_url req) None = Rejected ->
      podcast_status_handler fetch req
      = {| statusCode := 500; headers := [];
           sent := Json (JObject [(lit "error",
                                   JString (lit "Failed to fetch podcast status"))]) |}).
Proof.
  split; intros Hm Hf.
  - unfold generate_podcast_handler, forward.
      replace (str_eqb (method req) (lit "POST")) with true
      by (symmetry; apply str_eqb_eq, Hm).
    rewrite Hf. reflexivity.
  - unfold podcast_status_handler, forward.
    replace (str_eqb (method req) (lit "GET")) with true
      by (symmetry; apply str_eqb_eq, Hm).
    rewrite Hf. reflexivity.
Qed.

(** Any other method is refused before a fetch is made. *)
Lemma proxy_method_not_allowed
    (fetch : jsstring -> option RequestInit -> fetch_result) (req : request) :
  (method req <> lit "POST" ->
   generate_podcast_handler fetch req = method_not_allowed (lit "POST") req)
  /\ (method req <> lit "GET" ->
      podcast_status_handler fetch req = method_not_allowed (lit "GET") req).
Proof.
  split; intros Hm; apply strict_neq_true in Hm; unfold strict_neq in Hm;
    apply negb_true_iff in Hm;
    unfold generate_podcast_handler, podcast_status_handler;
    rewrite Hm; reflexivity.
Qed.

(* ================================================================== *)
(** ** The properties at concrete inputs                               *)
(* ================================================================== *)

(** At the sources step with nothing uploaded and no URL, Next does
    nothing. *)
Lemma goNext_requires_complete_witness :
  1 <= step (dispatch initial StartLearning) <= 4
  /\ isStepComplete (dispatch initial StartLearning) 1 = false
  /\ goNext (dispatch initial StartLearning) = dispatch initial StartLearning.
Proof.
  assert (R : 1 <= step (dispatch initial StartLearning) <= 4)
    by (vm_compute; split; discriminate).
  split; [exact R|]. split; [reflexivity|].
  apply (proj1 (goNext_requires_complete (dispatch initial StartLearning) R)).
  reflexivity.
Defined.

(** The scenario of the specification: at step 1 with no source and
    blank [urls] the user cannot advance; once [urls] is "http://x",
    Next leads to step 2. *)
Example sources_step_scenario :
  let blank := dispatch (dispatch initial StartLearning) (UrlsChange (lit "  ")) in
  let filled := dispatch blank (UrlsChange (lit "http://x")) in
  step blank = 1 /\ dispatch blank Next = blank
  /\ step (dispatch filled Next) = 2.
Proof. repeat split. Qed.

(** A session in which the analogies field loses focus while filled in,
    and is then emptied and blurred again: the latch stays on. *)
Lemma showEmphasis_never_reverts_witness :
  let es := [StartLearning; UrlsChange (lit "http://x"); Next;
             AnalogiesChange (lit "like a river"); AnalogiesBlur] in
  let later := [EmphasisChange (lit "rivers"); AnalogiesChange (lit "");
                AnalogiesBlur; Previous; Next] in
  showEmphasis (run initial es) = true
  /\ showEmphasis (run initial (es ++ later)) = true.
Proof.
  cbv zeta. split; [reflexivity|].
  apply showEmphasis_never_reverts. reflexivity.
Defined.

(** Previous at the plan step of a session that had selected Stingy. *)
Lemma goPrevious_from_plan_step_witness :
  plan ready_to_generate = lit "stingy"
  /\ step (goPrevious ready_to_generate) = 3
  /\ plan (goPrevious ready_to_generate) = lit "".
Proof.
  split; [reflexivity|].
  destruct (goPrevious_from_plan_step ready_to_generate eq_refl)
    as (Hs & Hp & _).
  split; [exact Hs | exact Hp].
Defined.

(** A seek to 30 seconds in the 120-second player. *)
Lemma handleSeek_sets_position_witness :
  currentTime (handleSeek 30%Q player_120) = 30%Q
  /\ (0 <= currentTime (handleSeek 30%Q player_120)
      <= duration (handleSeek 30%Q player_120))%Q.
Proof.
  destruct (handleSeek_sets_position player_120
              (media_set_duration 120%Q
                 (mounted_audio
                    (setStep 6 (setAudioUrl generated_podcast_url initial))))
              30%Q eq_refl) as (Hc & _ & _ & Hr).
  split; [exact Hc|]. apply Hr. split; discriminate.
Defined.

(** Two minutes, five seconds and a half. *)
Lemma formatTime_M_SS_witness :
  (0 <= 251 # 2)%Q /\ (251 # 2 < inject_Z (2 ^ 53))%Q
  /\ (round64 (251 # 2) == 251 # 2)%Q
  /\ formatTime (fun _ => lit "") (251 # 2)%Q = lit "2:05".
Proof.
  assert (H : (0 <= 251 # 2)%Q) by discriminate.
  assert (B : (251 # 2 < inject_Z (2 ^ 53))%Q) by reflexivity.
  assert (D : (round64 (251 # 2) == 251 # 2)%Q) by (vm_compute; reflexivity).
  split; [exact H|]. split; [exact B|]. split; [exact D|].
  destruct (formatTime_M_SS (fun _ => lit "") (251 # 2)%Q H B D)
    as (_ & _ & _ & E & _).
  exact E.
Defined.

(** A POST while the upstream cannot be reached. *)
Lemma generate_podcast_outcomes_witness :
  method post_request = lit "POST"
  /\ is_success (generate_podcast_handler unreachable post_request) = false.
Proof.
  split; [reflexivity|].
  exact (proj2 (generate_podcast_outcomes unreachable post_request eq_refl)).
Defined.

(** The scenario of the specification: GET /podcast_status/abc while the
    upstream cannot be reached. *)
Lemma proxy_fetch_failure_witness :
  status_url status_request = lit "http://localhost:8000/podcast_status/abc"
  /\ podcast_status_handler unreachable status_request
     = {| statusCode := 500; headers := [];
          sent := Json (JObject [(lit "error",
                                  JString (lit "Failed to fetch podcast status"))]) |}.
Proof.
  split; [reflexivity|].
  apply (proj2 (proxy_fetch_failure unreachable status_request));
    reflexivity.
Defined.

(** The scenario of the specification: a PUT to generate_podcast is
    answered with 405 and [Allow: POST]. *)
Example generate_podcast_put :
  generate_podcast_handler unreachable
    {| method := lit "PUT"; body := JNull; query_id := QueryUndefined |}
  = {| statusCode := 405; headers := [(lit "Allow", [lit "POST"])];
       sent := Ended (lit "Method PUT Not Allowed") |}.
Proof. reflexivity. Qed.

(* ================================================================== *)
(** ** Further properties of the wizard                                *)
(* ================================================================== *)

Lemma commit_same (s : State) : commit s s = s.
Proof. unfold commit. rewrite Z.eqb_refl, strict_neq_refl. reflexivity. Qed.

Lemma setStep_same (s : State) : setStep (step s) s = s.
Proof. destruct s; reflexivity. Qed.

Lemma footer_rendered_iff (s : State) :
  footer_rendered s = true <-> 1 <= step s <= 4.
Proof.
  unfold footer_rendered, steps_length.
  rewrite andb_true_iff, !Z.ltb_lt. lia.
Qed.

(** X1. Outside steps 1..4 (welcome, generating, result) the footer is
    not rendered: Next and Previous change nothing. *)
Theorem navigation_inert_outside_footer (s : State) :
  step s <= 0 \/ 5 <= step s ->
  goNext s = s /\ goPrevious s = s
  /\ dispatch s Next = s /\ dispatch s Previous = s.
Proof.
  intros H.
  assert (F : footer_rendered s = false).
  { apply not_true_iff_false. rewrite footer_rendered_iff. lia. }
  assert (N : goNext s = s) by (unfold goNext, next_enabled; rewrite F; reflexivity).
  assert (P : goPrevious s = s) by (unfold goPrevious; rewrite F; reflexivity).
  unfold dispatch, handle. rewrite N, P, commit_same. auto.
Qed.

Lemma navigation_inert_outside_footer_witness :
  dispatch initial Next = initial /\ dispatch initial Previous = initial.
Proof.
  destruct (navigation_inert_outside_footer initial) as (_ & _ & N & P).
  - left. discriminate.
  - split; [exact N | exact P].
Defined.

(** X2. At a step in 1..3 whose predicate holds, Next adds one to the
    step index and changes nothing else; Previous right after it gives
    the state back, except that coming back from the plan step also
    empties [plan]. *)
Theorem goNext_then_goPrevious (s : State) :
  1 <= step s <= 3 -> isStepComplete s (step s) = true ->
  goNext s = setStep (step s + 1) s
  /\ goPrevious (goNext s)
     = if step s =? 3 then setPlan (lit "") s else s.
Proof.
  intros H C.
  assert (N : goNext s = setStep (step s + 1) s).
  { unfold goNext, next_enabled, next_onClick, steps_length.
    replace (footer_rendered s) with true
      by (symmetry; apply footer_rendered_iff; lia).
    replace (step s <? 7 - 2) with true by (symmetry; apply Z.ltb_lt; lia).
    rewrite C. cbn.
    replace (step s =? 4) with false by (symmetry; apply Z.eqb_neq; lia).
    reflexivity. }
  split; [exact N|]. rewrite N.
  unfold goPrevious, previous_onClick.
  replace (footer_rendered (setStep (step s + 1) s)) with true
    by (symmetry; apply footer_rendered_iff; cbn; lia).
  cbn. replace (step s + 1 - 1) with (step s) by lia.
  destruct (Z.eqb_spec (step s) 3) as [E|E].
  - replace (step s + 1 =? 4) with true by (symmetry; apply Z.eqb_eq; lia).
    destruct s; reflexivity.
  - replace (step s + 1 =? 4) with false by (symmetry; apply Z.eqb_neq; lia).
    destruct s; reflexivity.
Qed.

Lemma goNext_then_goPrevious_witness :
  let s := dispatch (dispatch initial StartLearning) (UrlsChange (lit "http://x")) in
  step (goNext s) = 2 /\ goPrevious (goNext s) = s.
Proof.
  cbv zeta.
  set (s := dispatch (dispatch initial StartLearning) (UrlsChange (lit "http://x"))).
  assert (R : 1 <= step s <= 3) by (vm_compute; split; discriminate).
  assert (C : isStepComplete s (step s) = true) by reflexivity.
  destruct (goNext_then_goPrevious s R C) as (N & P).
  split; [rewrite N; reflexivity | exact P].
Defined.

(** X3. Generation does not lock the plan step: after Generate the
    button is still enabled, a second click queues a second callback,
    and Previous still leads back to step 3. *)
Theorem generate_not_guarded (s : State) :
  step s = 4 -> isStepComplete s 4 = true ->
  isGenerating (goNext s) = true
  /\ next_enabled (goNext s) = true
  /\ timeouts (goNext (goNext s)) = timeouts s ++ [4; 4]
  /\ step (goPrevious (goNext s)) = 3.
Proof.
  intros H C.
  assert (E : next_enabled s = true).
  { unfold next_enabled, footer_rendered. rewrite H, C. reflexivity. }
  assert (N : goNext s = handleGenerate s).
  { unfold goNext, next_onClick. rewrite E, H. reflexivity. }
  assert (E' : next_enabled (handleGenerate s) = true).
  { unfold next_enabled, footer_rendered. cbn. rewrite H. cbn. exact C. }
  rewrite N. split; [reflexivity|]. split; [exact E'|]. split.
  - unfold goNext, next_onClick. rewrite E'. cbn. rewrite H. cbn.
    rewrite H, <- app_assoc. reflexivity.
  - unfold goPrevious, footer_rendered, previous_onClick. cbn. rewrite H.
    reflexivity.
Qed.

Lemma generate_not_guarded_witness :
  timeouts (goNext (goNext ready_to_generate)) = [4; 4]
  /\ step (goPrevious (goNext ready_to_generate)) = 3.
Proof.
  destruct (generate_not_guarded ready_to_generate eq_refl eq_refl)
    as (_ & _ & T & P).
  split; [exact T | exact P].
Defined.

(** X4. After an upload event with a file list, the sources step is
    complete exactly when that list is non-empty or [urls] is non-blank:
    earlier uploads do not count, and an empty list clears them. *)
Theorem upload_decides_sources_step (s : State) (files : list File) :
  isStepComplete (handleFileUpload (Some files) s) 1 = true
  <-> files <> [] \/ trim (urls s) <> lit "".
Proof.
  unfold handleFileUpload. cbn [isStepComplete].
  change (sources (setSources files s)) with files.
  change (urls (setSources files s)) with (urls s).
  rewrite orb_true_iff, has_sources, strict_neq_true. tauto.
Qed.

(** *** Invariants of a session *)

Lemma commit_form (before after : State) :
  sources (commit before after) = sources after
  /\ urls (commit before after) = urls after
  /\ analogies (commit before after) = analogies after
  /\ emphasis (commit before after) = emphasis after
  /\ style (commit before after) = style after
  /\ showEmphasis (commit before after) = showEmphasis after.
Proof. unfold commit. split_tests; cbn; auto 10. Qed.

Lemma commit_isStepComplete (before after : State) (k : Z) :
  isStepComplete (commit before after) k = isStepComplete after k.
Proof.
  destruct (commit_form before after) as (E1 & E2 & E3 & E4 & E5 & E6).
  destruct (commit_fields before after) as (_ & _ & _ & _ & E7).
  unfold isStepComplete. rewrite E1, E2, E3, E4, E5, E6, E7. reflexivity.
Qed.

(** Induction over the events of a session. *)
Lemma session_induction (P : State -> Prop) :
  P initial ->
  (forall s e, session_invariant s -> P s -> P (dispatch s e)) ->
  forall es, P (run initial es).
Proof.
  intros H0 Hstep es.
  assert (G : forall s, session_invariant s -> P s -> P (run s es)).
  { induction es as [|e es IH]; intros s I H; [exact H|].
    apply IH; [apply dispatch_invariant, I | apply Hstep; assumption]. }
  apply G; [|exact H0].
  repeat split; cbn; try lia. constructor.
Qed.

(** X5. No session reaches the result step: the step index stays within
    0..5 and no audio element is ever mounted, so every event of the
    player leaves the state as it is. *)
Theorem session_never_shows_result (es : list event) :
  let s := run initial es in
  0 <= step s <= 5 /\ audioRef s = None
  /\ forall (accepted : bool) (i : SelectItem) (v t d : number),
       dispatch s (PlayPause accepted) = s /\ dispatch s (RateChange i) = s
       /\ dispatch s (SliderChange v) = s
       /\ dispatch s (AudioTimeUpdate t) = s
       /\ dispatch s (AudioLoadedMetadata d) = s.
Proof.
  cbv zeta.
  assert (I : session_invariant (run initial es)).
  { apply run_invariant. repeat split; cbn; try lia. constructor. }
  destruct I as (Hs & _ & Ha). split; [exact Hs|]. split; [exact Ha|].
  intros accepted i v t d.
  assert (E : (step (run initial es) =? 6) = false) by (apply Z.eqb_neq; lia).
  unfold dispatch, handle. rewrite E, Ha. cbn. rewrite commit_same. auto 10.
Qed.

(** X6. In every session [plan] is empty, "stingy" or "sigma". *)
Theorem plan_is_a_plan (es : list event) : plan_value (plan (run initial es)).
Proof.
  apply session_induction with (P := fun s => plan_value (plan s)).
  - left. reflexivity.
  - intros s e _ H. unfold dispatch.
    destruct (commit_fields s (handle e s)) as (_ & _ & _ & _ & ->).
    unfold plan_value in *.
    destruct e; cbn -[Z.eqb Z.ltb lit]; unfold_handlers; split_tests;
      cbn -[lit]; auto.
Qed.

(** X7. In every session, while the emphasis field is hidden
    ([showEmphasis] false) [emphasis] is the empty string. *)
Theorem emphasis_empty_while_hidden (es : list event) :
  showEmphasis (run initial es) = false -> emphasis (run initial es) = lit "".
Proof.
  apply session_induction
    with (P := fun s => showEmphasis s = false -> emphasis s = lit "").
  - reflexivity.
  - intros s e _ H. unfold dispatch.
    destruct (commit_form s (handle e s)) as (_ & _ & _ & -> & _ & ->).
    destruct e; cbn -[Z.eqb Z.ltb lit]; unfold_handlers; split_tests;
      cbn -[lit]; auto; try discriminate.
    all: intros; Z_tests; congruence.
Qed.

Lemma emphasis_empty_while_hidden_witness :
  emphasis (run initial [StartLearning; UrlsChange (lit "http://x"); Next;
                         EmphasisChange (lit "rivers")]) = lit "".
Proof. apply emphasis_empty_while_hidden. reflexivity. Defined.

(** X9. In every session, a completing generation callback sets the
    step index to 5, whatever step the user has moved to meanwhile; it
    stores the audio reference and clears [isGenerating]. *)
Theorem completion_lands_on_step_5 (es : list event) :
  timeouts (run initial es) <> [] ->
  let s := dispatch (run initial es) TimerFired in
  step s = 5 /\ audioUrl s = generated_podcast_url /\ isGenerating s = false
  /\ S (List.length (timeouts s)) = List.length (timeouts (run initial es)).
Proof.
  intros H. cbv zeta.
  assert (I : session_invariant (run initial es)).
  { apply run_invariant. repeat split; cbn; try lia. constructor. }
  destruct I as (_ & Ht & _). unfold dispatch.
  destruct (commit_fields (run initial es) (handle TimerFired (run initial es)))
    as (-> & -> & -> & -> & _).
  cbn. destruct (timeouts (run initial es)) as [|c rest]; [congruence|].
  inversion Ht; subst. cbn. auto.
Qed.

(** Generate, then back to the sources step, then the callback. *)
Lemma completion_lands_on_step_5_witness :
  let es := [StartLearning; UrlsChange (lit "http://x"); Next;
             AnalogiesChange (lit "like a river"); Next;
             StyleChange (lit "casual"); Next; SelectStingy; Next;
             Previous; Previous; Previous] in
  step (run initial es) = 1 /\ step (dispatch (run initial es) TimerFired) = 5.
Proof.
  cbv zeta. split; [reflexivity|].
  apply completion_lands_on_step_5. vm_compute. discriminate.
Defined.

(** *** The blur listener *)

(** No event changes both the step and [analogies]. *)
Lemma handle_step_or_analogies (e : event) (s : State) :
  step (handle e s) = step s \/ analogies (handle e s) = analogies s.
Proof.
  destruct e; cbn -[Z.eqb Z.ltb]; unfold_handlers; split_tests; cbn; auto.
Qed.

(** X10. After an event that changes the step, the analogies field of
    the new card carries no blur listener: a blur changes nothing until
    [analogies] is edited. *)
Theorem blur_inert_after_step_change (s : State) (e : event) :
  step (dispatch s e) <> step s ->
  blurListener (dispatch s e) = false
  /\ dispatch (dispatch s e) AnalogiesBlur = dispatch s e.
Proof.
  intros H.
  assert (B : blurListener (dispatch s e) = false).
  { unfold dispatch in *.
    destruct (commit_fields s (handle e s)) as (E & _). rewrite E in H.
    destruct (handle_step_or_analogies e s) as [K | K]; [congruence|].
    unfold commit.
    replace (step (handle e s) =? step s) with false
      by (symmetry; apply Z.eqb_neq; exact H).
    cbn. rewrite K, strict_neq_refl. reflexivity. }
  split; [exact B|].
  unfold dispatch at 1. unfold handle. rewrite B, andb_false_r.
  apply commit_same.
Qed.

(** Back on the customize step with [analogies] filled in: the blur
    does not reveal the emphasis field. *)
Lemma blur_inert_after_step_change_witness :
  let s := run initial [StartLearning; UrlsChange (lit "http://x"); Next;
                        AnalogiesChange (lit "like a river"); Next] in
  step (dispatch s Previous) = 2
  /\ showEmphasis (dispatch (dispatch s Previous) AnalogiesBlur) = false.
Proof.
  cbv zeta. split; [reflexivity|].
  set (s := run initial [StartLearning; UrlsChange (lit "http://x"); Next;
                         AnalogiesChange (lit "like a river"); Next]).
  assert (H : step (dispatch s Previous) <> step s)
    by (vm_compute; discriminate).
  rewrite (proj2 (blur_inert_after_step_change s Previous H)). reflexivity.
Defined.

(** X11. On the customize step, editing [analogies] and then leaving
    the field reveals the emphasis field exactly when the new text is
    non-blank (or the field was revealed already). *)
Theorem edit_then_blur (s : State) (v : jsstring) :
  step s = 2 -> v <> analogies s ->
  showEmphasis (run s [AnalogiesChange v; AnalogiesBlur])
  = showEmphasis s || strict_neq (trim v) (lit "").
Proof.
  intros H2 Hv. unfold run, fold_left.
  assert (E : dispatch s (AnalogiesChange v)
              = setBlurListener true (setAnalogies v s)).
  { unfold dispatch, handle, commit. rewrite H2. cbn -[strict_neq].
    rewrite H2. cbn -[strict_neq].
    replace (strict_neq v (analogies s)) with true
      by (symmetry; apply strict_neq_true, Hv).
    rewrite H2. reflexivity. }
  rewrite E. unfold dispatch.
  destruct (commit_form (setBlurListener true (setAnalogies v s))
              (handle AnalogiesBlur (setBlurListener true (setAnalogies v s))))
    as (_ & _ & _ & _ & _ & ->).
  cbn -[strict_neq trim lit]. rewrite H2. cbn -[strict_neq trim lit].
  unfold handleAnalogiesBlur. cbn -[strict_neq trim lit].
  destruct (strict_neq (trim v) (lit "")); cbn;
    [rewrite orb_true_r | rewrite orb_false_r]; reflexivity.
Qed.

Lemma edit_then_blur_witness :
  let s := run initial [StartLearning; UrlsChange (lit "http://x"); Next] in
  showEmphasis (run s [AnalogiesChange (lit "like a river"); AnalogiesBlur]) = true
  /\ showEmphasis (run s [AnalogiesChange (lit "  "); AnalogiesBlur]) = false.
Proof.
  cbv zeta.
  set (s := run initial [StartLearning; UrlsChange (lit "http://x"); Next]).
  split.
  - rewrite (edit_then_blur s (lit "like a river") eq_refl); [reflexivity|].
    vm_compute. discriminate.
  - rewrite (edit_then_blur s (lit "  ") eq_refl); [reflexivity|].
    vm_compute. discriminate.
Defined.

(* ================================================================== *)
(** ** Further properties of the player                                *)
(* ================================================================== *)

(** X12. With an audio element mounted, [handlePlayPause] flips
    [isPlaying] whatever the element does.  After a pause, the flag and
    the element agree.  After a play they agree exactly when the
    element took the call or was playing already: when it refuses
    [play()], [isPlaying] is true over a paused element.  From a state
    in which they agreed, a second call gives the first state back if
    the element took the play. *)
Theorem handlePlayPause_toggles (accepted : bool) (s : State)
    (a : HTMLAudioElement) :
  audioRef s = Some a ->
  isPlaying (handlePlayPause accepted s) = negb (isPlaying s)
  /\ (isPlaying s = true -> play_in_sync (handlePlayPause accepted s))
  /\ (isPlaying s = false ->
      (play_in_sync (handlePlayPause accepted s)
       <-> accepted = true \/ el_paused a = false))
  /\ (play_in_sync s ->
      handlePlayPause true (handlePlayPause true s) = s).
Proof.
  intros H. unfold play_in_sync, handlePlayPause. rewrite H. cbn.
  split; [reflexivity|]. split; [intros ->; reflexivity|]. split.
  - intros ->. cbn. destruct accepted, (el_paused a); cbn;
      split; auto; try discriminate; intros [K | K]; discriminate.
  - intros Y. destruct s as [? ? ? ? ? ? ? ? ? ? ? ? playing ? ? ? ref ? ?].
    cbn in *. subst ref. destruct a as [? ? ? paused ?]. cbn in *.
    subst playing. destruct paused; reflexivity.
Qed.

(** The 120-second player: a play that is taken, and one that is
    refused. *)
Lemma handlePlayPause_toggles_witness :
  play_in_sync (handlePlayPause true player_120)
  /\ ~ play_in_sync (handlePlayPause false player_120)
  /\ handlePlayPause true (handlePlayPause true player_120) = player_120.
Proof.
  destruct (handlePlayPause_toggles true player_120
              (media_set_duration 120%Q
                 (mounted_audio
                    (setStep 6 (setAudioUrl generated_podcast_url initial))))
              eq_refl) as (_ & _ & T & R).
  destruct (handlePlayPause_toggles false player_120
              (media_set_duration 120%Q
                 (mounted_audio
                    (setStep 6 (setAudioUrl generated_podcast_url initial))))
              eq_refl) as (_ & _ & F & _).
  split; [apply (T eq_refl); left; reflexivity|].
  split; [|apply R; reflexivity].
  intros Y. apply (F eq_refl) in Y. destruct Y as [Y | Y]; discriminate.
Defined.

(** X13. The displayed time follows the element: [handleSeek] and
    [handleTimeUpdate] make [currentTime] equal to the element's
    position, and the other handlers of the player keep them equal. *)
Theorem displayed_time_follows_element (s : State) (t : number)
    (i : SelectItem) (accepted : bool) :
  time_in_sync (handleSeek t s)
  /\ time_in_sync (handleTimeUpdate s)
  /\ (time_in_sync s ->
      time_in_sync (handlePlayPause accepted s)
      /\ time_in_sync (handlePlaybackRateChange i s)
      /\ time_in_sync (handleLoadedMetadata s)).
Proof.
  unfold time_in_sync, handleSeek, handleTimeUpdate, handlePlayPause,
    handlePlaybackRateChange, handleLoadedMetadata.
  cbn. destruct (audioRef s) as [a|] eqn:E; cbn; rewrite ?E; cbn.
  - split; [reflexivity|]. split; [reflexivity|]. intros Y.
    split; [destruct (isPlaying s); exact Y|]. split; [exact Y|exact Y].
  - auto.
Qed.

Lemma displayed_time_follows_element_witness :
  time_in_sync (handlePlaybackRateChange item_1_5 (handleSeek 30%Q player_120)).
Proof.
  destruct (displayed_time_follows_element (handleSeek 30%Q player_120)
              30%Q item_1_5 true) as (_ & _ & K).
  apply K. reflexivity.
Defined.

(** X14. Without an audio element ([audioRef.current] is null) the
    handlers of the player do nothing, except
    [handlePlaybackRateChange], which still records the chosen rate. *)
Theorem player_handlers_without_element (s : State) (t : number)
    (i : SelectItem) (accepted : bool) :
  audioRef s = None ->
  handlePlayPause accepted s = s /\ handleTimeUpdate s = s
  /\ handleLoadedMetadata s = s /\ handleSeek t s = s
  /\ handlePlaybackRateChange i s = setPlaybackRate (parseFloat_item i) s.
Proof.
  intros H.
  unfold handlePlayPause, handleTimeUpdate, handleLoadedMetadata, handleSeek,
    handlePlaybackRateChange.
  cbn. rewrite H. auto 10.
Qed.

Lemma player_handlers_without_element_witness :
  handlePlayPause true initial = initial
  /\ (playbackRate (handlePlaybackRateChange item_2 initial) == 2)%Q.
Proof.
  destruct (player_handlers_without_element initial 0%Q item_2 true eq_refl)
    as (P & _ & _ & _ & R).
  split; [exact P | rewrite R; reflexivity].
Defined.

(** X15. The display only depends on the whole seconds: for a double
    [t] with [0 <= t < 2^53], [formatTime t] is [formatTime] of
    [floor t], and the minutes and seconds it prints add up to
    [floor t]. *)
Theorem formatTime_whole_seconds (expo : Z -> jsstring) (t : number) :
  (0 <= t)%Q -> (t < inject_Z (2 ^ 53))%Q -> (round64 t == t)%Q ->
  formatTime expo t = formatTime expo (inject_Z (Qfloor t))
  /\ 60 * Math_floor (Number_divide t 60%Q) + Math_floor (remainder t 60%Q)
     = Qfloor t.
Proof.
  intros Ht Hb Hd.
  assert (Hb' : (t < pow2 53)%Q) by (rewrite pow2_Z by lia; exact Hb).
  assert (Wb : 0 <= Qfloor t < 2 ^ 53).
  { split; [apply whole_nonneg, Ht|].
    rewrite Zlt_Qlt. eapply Qle_lt_trans; [apply Qfloor_le | exact Hb]. }
  assert (Hw : (0 <= inject_Z (Qfloor t))%Q).
  { change 0%Q with (inject_Z 0). rewrite <- Zle_Qle. lia. }
  assert (Hwb : (inject_Z (Qfloor t) < pow2 53)%Q).
  { rewrite pow2_Z by lia. rewrite <- Zlt_Qlt. lia. }
  pose proof (round64_Z (Qfloor t) Wb) as Hwd.
  unfold formatTime, Math_floor.
  rewrite (floor_divide_60 t Ht Hb' Hd).
  rewrite (floor_divide_60 (inject_Z (Qfloor t)) Hw Hwb Hwd).
  pose proof (minutes_value t) as M1. pose proof (seconds_value t Ht) as S1.
  pose proof (minutes_value (inject_Z (Qfloor t))) as M2.
  pose proof (seconds_value (inject_Z (Qfloor t)) Hw) as S2.
  unfold Math_floor in *. rewrite Qfloor_Z in M2, S2.
  rewrite M1, S1, M2, S2. split; [reflexivity|].
  symmetry. apply Z.div_mod. lia.
Qed.

Lemma formatTime_whole_seconds_witness :
  formatTime (fun _ => lit "") (251 # 2)%Q = formatTime (fun _ => lit "") 125%Q.
Proof.
  assert (H : (0 <= 251 # 2)%Q) by discriminate.
  assert (B : (251 # 2 < inject_Z (2 ^ 53))%Q) by reflexivity.
  assert (D : (round64 (251 # 2) == 251 # 2)%Q) by (vm_compute; reflexivity).
  exact (proj1 (formatTime_whole_seconds (fun _ => lit "") (251 # 2)%Q H B D)).
Defined.

(** X16. Whenever the progress bar is rendered (steps 1..5), its value
    is 20 times the step index: between 20 and 100, and 100 exactly on
    the generating step. *)
Theorem progress_bar_bounds (s : State) :
  progress_rendered s = true ->
  (progress_value s == inject_Z (20 * step s))%Q
  /\ 20 <= 20 * step s <= 100
  /\ (20 * step s = 100 <-> step s = 5).
Proof.
  unfold progress_rendered, progress_value, steps_length.
  rewrite andb_true_iff, !Z.ltb_lt. intros (H1 & H2).
  split; [|lia].
  assert (K : step s = 1 \/ step s = 2 \/ step s = 3 \/ step s = 4
              \/ step s = 5) by lia.
  destruct K as [K | [K | [K | [K | K]]]]; rewrite K;
    vm_compute; reflexivity.
Qed.

Lemma progress_bar_bounds_witness :
  (progress_value ready_to_generate == 80)%Q.
Proof.
  destruct (progress_bar_bounds ready_to_generate eq_refl) as (K & _).
  exact K.
Defined.

(* ================================================================== *)
(** ** Further properties of the proxies                               *)
(* ================================================================== *)

(** X17. A request with another method than the route's is answered
    with 405, the header [Allow] naming the route's method and the text
    "Method <method> Not Allowed"; the upstream is not consulted. *)
Theorem proxy_wrong_method
    (fetch fetch' : jsstring -> option RequestInit -> fetch_result)
    (req : request) :
  (method req <> lit "POST" ->
   generate_podcast_handler fetch req
   = {| statusCode := 405; headers := [(lit "Allow", [lit "POST"])];
        sent := Ended (lit "Method " ++ method req ++ lit " Not Allowed") |}
   /\ generate_podcast_handler fetch req = generate_podcast_handler fetch' req)
  /\ (method req <> lit "GET" ->
      podcast_status_handler fetch req
      = {| statusCode := 405; headers := [(lit "Allow", [lit "GET"])];
           sent := Ended (lit "Method " ++ method req ++ lit " Not Allowed") |}
      /\ podcast_status_handler fetch req = podcast_status_handler fetch' req).
Proof.
  split; intros Hm; apply strict_neq_true in Hm; unfold strict_neq in Hm;
    apply negb_true_iff in Hm;
    unfold generate_podcast_handler, podcast_status_handler;
    rewrite Hm; split; reflexivity.
Qed.

(** A GET to generate_podcast, a POST to podcast_status. *)
Lemma proxy_wrong_method_witness :
  statusCode (generate_podcast_handler failing_upstream status_request) = 405
  /\ statusCode (podcast_status_handler failing_upstream post_request) = 405.
Proof.
  destruct (proxy_wrong_method failing_upstream unreachable status_request)
    as (G & _).
  destruct (proxy_wrong_method failing_upstream unreachable post_request)
    as (_ & S).
  split.
  - rewrite (proj1 (G ltac:(vm_compute; discriminate))). reflexivity.
  - rewrite (proj1 (S ltac:(vm_compute; discriminate))). reflexivity.
Defined.

(** X18. The proxies answer with 200, 405 or 500 only, whatever the
    status of the upstream; 405 exactly for a method that is not the
    route's, and only then with a header. *)
Theorem proxy_status_codes
    (fetch : jsstring -> option RequestInit -> fetch_result) (req : request) :
  let g := generate_podcast_handler fetch req in
  let p := podcast_status_handler fetch req in
  In (statusCode g) [200; 405; 500] /\ In (statusCode p) [200; 405; 500]
  /\ (statusCode g = 405 <-> method req <> lit "POST")
  /\ (statusCode p = 405 <-> method req <> lit "GET")
  /\ (statusCode g <> 405 -> headers g = [])
  /\ (statusCode p <> 405 -> headers p = []).
Proof.
  cbv zeta. unfold generate_podcast_handler, podcast_status_handler, forward.
  rewrite <- !strict_neq_true. unfold strict_neq.
  destruct (str_eqb (method req) (lit "POST"));
    destruct (str_eqb (method req) (lit "GET"));
    destruct (fetch generate_url (generate_init req)) as [|r1];
    destruct (fetch (status_url req) None) as [|r2];
    try destruct (up_json r1); try destruct (up_json r2);
    cbn -[lit]; repeat split; auto; try discriminate; try tauto;
    try (intros; congruence).
Qed.

(** An upstream failure on each route. *)
Lemma proxy_status_codes_witness :
  headers (generate_podcast_handler failing_upstream post_request) = []
  /\ headers (podcast_status_handler unreachable status_request) = [].
Proof.
  destruct (proxy_status_codes failing_upstream post_request)
    as (_ & _ & _ & _ & G & _).
  destruct (proxy_status_codes unreachable status_request)
    as (_ & _ & _ & _ & _ & P).
  split; [apply G | apply P]; vm_compute; discriminate.
Defined.

(** X19. For a GET, the podcast_status proxy asks the upstream for
    [/podcast_status/<id>]; it answers with the 500 error when the fetch
    fails or the body is not JSON, and otherwise forwards the JSON body
    with status 200 whatever the upstream status was. *)
Theorem podcast_status_outcomes
    (fetch : jsstring -> option RequestInit -> fetch_result) (req : request) :
  method req = lit "GET" ->
  match fetch (lit "http://localhost:8000/podcast_status/"
                 ++ query_to_string (query_id req)) None with
  | Rejected =>
      podcast_status_handler fetch req
      = internal_error (lit "Failed to fetch podcast status")
  | Resolved r =>
      match up_json r with
      | None =>
          podcast_status_handler fetch req
          = internal_error (lit "Failed to fetch podcast status")
      | Some data =>
          podcast_status_handler fetch req
          = {| statusCode := 200; headers := []; sent := Json data |}
      end
  end.
Proof.
  intros Hm. unfold podcast_status_handler, forward, status_url.
  replace (str_eqb (method req) (lit "GET")) with true
    by (symmetry; apply str_eqb_eq, Hm).
  destruct (fetch _ None) as [|r]; [reflexivity|].
  destruct (up_json r); reflexivity.
Qed.

Lemma podcast_status_outcomes_witness :
  podcast_status_handler failing_upstream status_request
  = {| statusCode := 200; headers := [];
       sent := Json (JObject [(lit "detail", JString (lit "boom"))]) |}.
Proof.
  exact (podcast_status_outcomes failing_upstream status_request eq_refl).
Defined.

(** X20. The generate_podcast proxy is transparent: the upstream
    receives the body of the request, and what it replies in JSON is
    the body of the 200 answer, whatever status it replied with. *)
Theorem generate_podcast_transparent
    (status : Z) (reply : option json -> json) (req : request) :
  method req = lit "POST" ->
  generate_podcast_handler (answering status reply) req
  = {| statusCode := 200; headers := [];
       sent := Json (reply (Some (body req))) |}.
Proof.
  intros Hm. unfold generate_podcast_handler, forward.
  replace (str_eqb (method req) (lit "POST")) with true
    by (symmetry; apply str_eqb_eq, Hm).
  reflexivity.
Qed.

(** An upstream that echoes what it was sent. *)
Lemma generate_podcast_transparent_witness :
  generate_podcast_handler
    (answering 201 (fun b => match b with Some j => j | None => JNull end))
    post_request
  = {| statusCode := 200; headers := []; sent := Json (body post_request) |}.
Proof.
  exact (generate_podcast_transparent 201
           (fun b => match b with Some j => j | None => JNull end)
           post_request eq_refl).
Defined.

(* ================================================================== *)
(** ** Events on a card that is leaving                                *)
(* ================================================================== *)

(** On its own render a card behaves as [handle] says. *)
Lemma handle_leaving_current (e : event) (s : State) :
  handle_leaving s e s = handle e s.
Proof. destruct e; reflexivity. Qed.

(** An event on the mounted card followed by the end of the transition
    is [dispatch]. *)
Lemma act_then_settle (p : Page) (e : event) :
  leaving p = None ->
  settle (act p (On e)) = {| now := dispatch (now p) e; leaving := None |}.
Proof.
  intros L. unfold act. rewrite L. cbv zeta.
  rewrite handle_leaving_current. unfold dispatch, commit, commit_effect.
  set (s := now p). set (s' := handle e s).
  destruct (handle_step_or_analogies e s) as [K | K]; fold s' in K.
  - rewrite K, Z.eqb_refl.
    destruct (strict_neq (analogies s') (analogies s)); cbn;
      rewrite K, Z.eqb_refl; reflexivity.
  - rewrite K, strict_neq_refl.
    destruct (step s' =? step s) eqn:E.
    + rewrite K, strict_neq_refl. reflexivity.
    + unfold settle. cbn. rewrite K, strict_neq_refl. reflexivity.
Qed.

Lemma handle_leaving_invariant (r : State) (e : event) (s : State) :
  session_invariant s -> 0 <= step r <= 5 ->
  session_invariant (handle_leaving r e s).
Proof.
  intros (Hs & Ht & Ha) Hr. unfold session_invariant. split; [|split].
  - destruct e; cbn -[Z.eqb Z.ltb]; unfold_handlers;
      rewrite ?Ha; split_tests; cbn -[Z.eqb Z.ltb]; Z_tests; try lia.
    inversion Ht; subst; lia.
  - destruct e; cbn -[Z.eqb Z.ltb]; unfold_handlers;
      rewrite ?Ha; split_tests; cbn -[Z.eqb Z.ltb]; Z_tests;
      try assumption.
    + apply Forall_app. split; [exact Ht|]. constructor; auto.
    + match goal with H : timeouts s = [] |- _ => rewrite H end. constructor.
    + inversion Ht; assumption.
  - destruct e; cbn -[Z.eqb Z.ltb]; unfold_handlers;
      rewrite ?Ha; split_tests; cbn -[Z.eqb Z.ltb]; try assumption;
      try discriminate; try reflexivity.
    Z_tests; lia.
Qed.

Lemma handle_leaving_showEmphasis (r : State) (e : event) (s : State) :
  showEmphasis s = true -> showEmphasis (handle_leaving r e s) = true.
Proof.
  intros H. destruct e; cbn -[Z.eqb]; unfold_handlers; split_tests;
    cbn; auto.
Qed.

Lemma commit_effect_fields (r before after : State) :
  step (commit_effect r before after) = step after
  /\ timeouts (commit_effect r before after) = timeouts after
  /\ audioRef (commit_effect r before after) = audioRef after
  /\ showEmphasis (commit_effect r before after) = showEmphasis after
  /\ plan (commit_effect r before after) = plan after
  /\ emphasis (commit_effect r before after) = emphasis after.
Proof. unfold commit_effect. split_tests; cbn; auto 10. Qed.

Lemma act_invariant (p : Page) (a : action) :
  page_invariant p -> page_invariant (act p a).
Proof.
  intros (I & L). destruct a as [e|].
  - unfold act. destruct (leaving p) as [r|] eqn:E.
    + destruct (L r eq_refl) as (Hr & Hl).
      pose proof (handle_leaving_invariant r e (now p) I Hr) as J.
      destruct (commit_effect_fields r (now p) (handle_leaving r e (now p)))
        as (E1 & E2 & E3 & E4 & _).
      split.
      * unfold session_invariant in *. cbn. rewrite E1, E2, E3. exact J.
      * cbn. intros r' [= <-]. split; [exact Hr|]. intros S. rewrite E4.
        apply handle_leaving_showEmphasis, Hl, S.
    + cbv zeta.
      assert (Hr : 0 <= step (now p) <= 5) by apply I.
      pose proof (handle_leaving_invariant (now p) e (now p) I Hr) as J.
      destruct (commit_effect_fields (now p) (now p)
                  (handle_leaving (now p) e (now p)))
        as (E1 & E2 & E3 & E4 & _).
      split.
      * unfold session_invariant in *. cbn. rewrite E1, E2, E3. exact J.
      * cbn. destruct (_ =? _); [discriminate|]. intros r' [= <-].
        split; [exact Hr|]. intros S. rewrite E4.
        apply handle_leaving_showEmphasis, S.
  - unfold act, settle. destruct (leaving p) as [r|] eqn:E.
    + destruct I as (Hs & Ht & Ha). split; [|cbn; discriminate].
      unfold session_invariant. cbn.
      replace (step (now p) =? 6) with false
        by (symmetry; apply Z.eqb_neq; lia).
      auto.
    + split; [exact I|]. rewrite E. discriminate.
Qed.

Lemma play_invariant (acts : list action) :
  forall p, page_invariant p -> page_invariant (play p acts).
Proof.
  induction acts as [|a acts IH]; intros p H; [exact H|].
  apply IH, act_invariant, H.
Qed.

Lemma first_page_invariant : page_invariant first_page.
Proof.
  split; [|cbn; discriminate]. repeat split; cbn; try lia. constructor.
Qed.

(** With the events of leaving cards too, the step index of a session
    stays within 0..5 and no audio element is mounted. *)
Lemma page_never_shows_result (acts : list action) :
  0 <= step (now (play first_page acts)) <= 5
  /\ audioRef (now (play first_page acts)) = None.
Proof.
  destruct (play_invariant acts first_page first_page_invariant)
    as ((Hs & _ & Ha) & _).
  split; assumption.
Qed.

(** With the events of leaving cards too, [showEmphasis] never goes
    back to false. *)
Lemma page_showEmphasis_latch (acts : list action) :
  forall p, showEmphasis (now p) = true ->
            showEmphasis (now (play p acts)) = true.
Proof.
  induction acts as [|a acts IH]; intros p H; [exact H|].
  apply IH. destruct a as [e|].
  - unfold act. destruct (leaving p) as [r|]; cbv zeta; cbn.
    + destruct (commit_effect_fields r (now p) (handle_leaving r e (now p)))
        as (_ & _ & _ & -> & _).
      apply handle_leaving_showEmphasis, H.
    + destruct (commit_effect_fields (now p) (now p)
                  (handle_leaving (now p) e (now p)))
        as (_ & _ & _ & -> & _).
      apply handle_leaving_showEmphasis, H.
  - unfold act, settle. destruct (leaving p); [cbn|]; exact H.
Qed.

(** With the events of leaving cards too, [plan] is empty, "stingy" or
    "sigma". *)
Lemma page_plan_value (acts : list action) :
  forall p, plan_value (plan (now p)) ->
            plan_value (plan (now (play p acts))).
Proof.
  induction acts as [|a acts IH]; intros p H; [exact H|].
  apply IH. unfold plan_value in *. destruct a as [e|].
  - unfold act.
    assert (G : forall r, plan (handle_leaving r e (now p)) = lit ""
                          \/ plan (handle_leaving r e (now p)) = lit "stingy"
                          \/ plan (handle_leaving r e (now p)) = lit "sigma").
    { intros r. destruct e; cbn -[Z.eqb Z.ltb lit]; unfold_handlers;
        split_tests; cbn -[lit]; auto. }
    destruct (leaving p) as [r|]; cbv zeta; cbn -[lit].
    + destruct (commit_effect_fields r (now p) (handle_leaving r e (now p)))
        as (_ & _ & _ & _ & -> & _). apply G.
    + destruct (commit_effect_fields (now p) (now p)
                  (handle_leaving (now p) e (now p)))
        as (_ & _ & _ & _ & -> & _). apply G.
  - unfold act, settle. destruct (leaving p); [cbn -[lit]|]; exact H.
Qed.

(** What the leaving card allows: after Next on the sources step, its
    URL field still takes an edit, and the customize step is shown over
    an incomplete sources step. *)
Example leaving_card_edit :
  let p := play first_page
             [On StartLearning; TransitionEnd;
              On (UrlsChange (lit "http://x")); On Next;
              On (UrlsChange (lit "")); TransitionEnd] in
  step (now p) = 2 /\ leaving p = None
  /\ isStepComplete (now p) 1 = false.
Proof. repeat split. Qed.
